(** * vegpacker: circle packing widths and first-fit-decreasing binning

    A shallow embedding of [vp.c] and the properties of its three
    functions [compute_min_width], [adjust_best_widths] and
    [pack_rectangles].

    Numeric model.  A C [double] is read as a real number (type [R]): the
    arithmetic of the program is the exact arithmetic of the reals, so
    rounding, infinities and NaN are outside the model.  A C [int] is read
    as an integer (type [Z]); signed overflow has no meaning in C and the
    model covers the executions in which it does not happen.  The
    conversion [(int)x] truncates towards zero, [/] and [%] on [int] are
    [Z.quot] and [Z.rem].  The variable-length arrays of the program are
    lists. *)

From Stdlib Require Import ZArith List Reals Zfloor Lra Lia Psatz Permutation.
Import ListNotations.

Open Scope R_scope.

(** ** The C operations the program uses *)

Module C.

(** [(int)x] for a [double] [x]: the fractional part is discarded. *)
Definition double_to_int (x : R) : Z :=
  if Rle_dec 0 x then Zfloor x else Zceil x.

(** [fmin] of <math.h> on two numbers. *)
Definition fmin (x y : R) : R :=
  if Rle_dec x y then x else y.

(** The comparisons [<], [>] and [>=] on two numbers. *)
Definition ltb (x y : R) : bool := if Rlt_dec x y then true else false.
Definition gtb (x y : R) : bool := ltb y x.
Definition geb (x y : R) : bool := if Rle_dec y x then true else false.

(** [for (int i = i0; ...; i++) acc += body(i);] run for [k] rounds. *)
Fixpoint for_add (k : nat) (i : Z) (body : Z -> Z) (acc : Z) : Z :=
  match k with
  | O => acc
  | S k' => for_add k' (i + 1)%Z body (acc + body i)%Z
  end.

(** [for (int i = 0; i < bound; i++) acc += body(i);] from [acc = 0]. *)
Definition for_upto (bound : Z) (body : Z -> Z) : Z :=
  for_add (Z.to_nat bound) 0%Z body 0%Z.

End C.

(** ** [compute_min_width] *)

(** The label printed by the [switch] at the end of [compute_min_width]. *)
Inductive packing : Type :=
| flat_topped
| pointy_topped
| regular.

(** What one call produces: the value stored through [best_width] and the
    packing named on the console. *)
Record solver_result : Type := mk_result {
  best_width : R;
  reported : packing
}.

(** *** Flat-topped packing (lines 32-41) *)

Definition rows_flat (r : R) (height : Z) : Z :=
  C.double_to_int (IZR height / (2 * r)).

(** The conditional expression added to [total_circles_flat] for row [i]. *)
Definition flat_row (r width_flat : R) (i : Z) : Z :=
  if (Z.rem i 2 =? 0)%Z
  then C.double_to_int (width_flat / (2 * r))
  else C.double_to_int ((width_flat - r) / (2 * r)).

(** The inner [for] loop: the capacity of [rows] rows at a given width. *)
Definition flat_capacity (r : R) (rows : Z) (width_flat : R) : Z :=
  C.for_upto rows (flat_row r width_flat).

(** The [while (total_circles_flat < n)] loop, [fuel] bounding the number
    of rounds; [None] when the rounds allowed are used up. *)
Fixpoint flat_loop (fuel : nat) (r : R) (rows n total_circles_flat : Z)
    (width_flat : R) : option R :=
  if (total_circles_flat <? n)%Z then
    match fuel with
    | O => None
    | S fuel' =>
        let width_flat := width_flat + 2 * r in
        flat_loop fuel' r rows n (flat_capacity r rows width_flat) width_flat
    end
  else Some width_flat.

Definition width_flat (fuel : nat) (r : R) (height n : Z) : option R :=
  flat_loop fuel r (rows_flat r height) n 0%Z 0.

(** *** Pointy-topped packing (lines 44-54) *)

Definition rows_pointy (r : R) (height : Z) : Z :=
  C.double_to_int (IZR height / (sqrt 3 * r)).

(** The conditional expression added to [total_circles_pointy] for column
    [i]. *)
Definition pointy_column (rows : Z) (i : Z) : Z :=
  if (Z.rem i 2 =? 0)%Z then rows
  else if (rows >? 0)%Z then (rows - 1)%Z else 0%Z.

(** The inner [for] loop: the capacity of [columns] columns. *)
Definition pointy_capacity (rows columns : Z) : Z :=
  C.for_upto columns (pointy_column rows).

(** The [while (total_circles_pointy < n)] loop; it returns the value of
    [columns_pointy] on exit. *)
Fixpoint pointy_loop (fuel : nat) (rows n total_circles_pointy
    columns_pointy : Z) : option Z :=
  if (total_circles_pointy <? n)%Z then
    match fuel with
    | O => None
    | S fuel' =>
        pointy_loop fuel' rows n (pointy_capacity rows columns_pointy)
          (columns_pointy + 1)%Z
    end
  else Some columns_pointy.

(** [columns_pointy] when the loop is left. *)
Definition columns_pointy (fuel : nat) (r : R) (height n : Z) : option Z :=
  pointy_loop fuel (rows_pointy r height) n 0%Z 1%Z.

(** Line 54. *)
Definition pointy_formula (r : R) (columns_pointy : Z) : R :=
  if (columns_pointy =? 1)%Z then 2 * r
  else 2 * r + IZR (columns_pointy - 2) * r * sqrt 3.

Definition width_pointy (fuel : nat) (r : R) (height n : Z) : option R :=
  match columns_pointy fuel r height n with
  | Some c => Some (pointy_formula r c)
  | None => None
  end.

(** *** Regular grid packing (lines 57-60) *)

Definition rows_regular (r : R) (height : Z) : Z :=
  let rows := C.double_to_int (IZR height / (2 * r)) in
  if (rows <? 1)%Z then 1%Z else rows.

Definition columns_regular (r : R) (height n : Z) : Z :=
  let rows := rows_regular r height in
  Z.quot (n + rows - 1) rows.

Definition width_regular (r : R) (height n : Z) : R :=
  2 * r * IZR (columns_regular r height n).

(** *** Selection (lines 62-87) *)

(** Line 63. *)
Definition choose_width (width_flat width_pointy width_regular : R) : R :=
  C.fmin (C.fmin width_flat width_pointy) width_regular.

(** Lines 69-75: 1 for flat-topped, 2 for pointy-topped, 0 otherwise. *)
Definition smallest_width (width_flat width_pointy width_regular : R) : Z :=
  if (C.ltb width_flat width_pointy && C.ltb width_flat width_regular)%bool
  then 1%Z
  else if (C.ltb width_pointy width_flat
           && C.ltb width_pointy width_regular)%bool
       then 2%Z
       else 0%Z.

(** Lines 77-87: the [switch] on [smallest_width]. *)
Definition packing_of (smallest_width : Z) : packing :=
  match smallest_width with
  | 1%Z => flat_topped
  | 2%Z => pointy_topped
  | _ => regular
  end.

(** The whole function.  The two [while] loops run one after the other, so
    the pointy-topped loop is reached only when the flat-topped one is
    left; there is no test of the arguments and no other way out. *)
Definition compute_min_width (fuel : nat) (radius : R) (height num_circles : Z)
    : option solver_result :=
  match width_flat fuel radius height num_circles with
  | None => None
  | Some wf =>
      match width_pointy fuel radius height num_circles with
      | None => None
      | Some wp =>
          let wr := width_regular radius height num_circles in
          Some (mk_result (choose_width wf wp wr)
                          (packing_of (smallest_width wf wp wr)))
      end
  end.

(** ** [adjust_best_widths] and [pack_rectangles] *)

Section LargeRectangles.

(** The macro [LARGE_RECT_WIDTH], an integer constant. *)
Variable LARGE_RECT_WIDTH : Z.

(** *** [adjust_best_widths] (lines 143-170) *)

(** One round of the outer loop: the entries written to
    [adjusted_widths] for the width [w]. *)
Definition split_width (w : R) : list R :=
  if C.gtb w (IZR LARGE_RECT_WIDTH) then
    let parts := C.double_to_int (w / IZR LARGE_RECT_WIDTH) in
    let remainder := w - IZR (parts * LARGE_RECT_WIDTH) in
    repeat (IZR LARGE_RECT_WIDTH) (Z.to_nat parts)
      ++ (if C.gtb remainder 0 then [remainder] else [])
  else [w].

(** The outer loop, [adjusted_widths] growing at its end ([idx++]). *)
Fixpoint adjust_loop (best_widths adjusted_widths : list R) : list R :=
  match best_widths with
  | [] => adjusted_widths
  | w :: rest => adjust_loop rest (adjusted_widths ++ split_width w)
  end.

(** The array and the count left in [best_widths] and [*num_radii]. *)
Definition adjust_best_widths (best_widths : list R) : list R :=
  adjust_loop best_widths [].

(** *** [pack_rectangles] (lines 91-140) *)

(** [compare_desc] (lines 18-23). *)
Definition compare_desc (a b : R) : Z :=
  let diff := b - a in
  if C.gtb diff 0 then 1%Z
  else if C.ltb diff 0 then (-1)%Z
  else 0%Z.

(** [qsort] with [compare_desc].  The C library leaves the sorting method
    open; the elements are numbers, so every method yields the same
    array, here obtained by insertion. *)
Fixpoint insert_desc (x : R) (l : list R) : list R :=
  match l with
  | [] => [x]
  | y :: l' =>
      if (compare_desc x y <=? 0)%Z then x :: l else y :: insert_desc x l'
  end.

Fixpoint qsort_desc (l : list R) : list R :=
  match l with
  | [] => []
  | x :: l' => insert_desc x (qsort_desc l')
  end.

(** Entry [j] of [remaining_space] with row [j] of [packed_rects] (its
    first [packed_counts[j]] cells). *)
Record large_rect : Type := mk_rect {
  remaining_space : R;
  packed : list R
}.

(** Lines 107-114: the scan of the rectangles opened so far; [None] when
    [placed] is still 0 at its end. *)
Fixpoint first_fit (w : R) (rects : list large_rect)
    : option (list large_rect) :=
  match rects with
  | [] => None
  | b :: rest =>
      if C.geb (remaining_space b) w then
        Some (mk_rect (remaining_space b - w) (packed b ++ [w]) :: rest)
      else
        match first_fit w rest with
        | Some rest' => Some (b :: rest')
        | None => None
        end
  end.

(** One round of the loop of lines 103-122. *)
Definition place (rects : list large_rect) (w : R) : list large_rect :=
  match first_fit w rects with
  | Some rects' => rects'
  | None => rects ++ [mk_rect (IZR LARGE_RECT_WIDTH - w) [w]]
  end.

(** The rectangles after the widths [ws] were placed in turn. *)
Definition pack_loop (ws : list R) (rects : list large_rect)
    : list large_rect :=
  fold_left place ws rects.

(** Lines 125-128. *)
Definition total_waste (rects : list large_rect) : R :=
  fold_left (fun waste b => waste + remaining_space b) rects 0.

(** What [pack_rectangles] prints. *)
Record packing_report : Type := mk_report {
  large_rect_count : Z;
  wasted : R;
  wasted_percent : R;
  details : list (list R)
}.

Definition report_of (rects : list large_rect) : packing_report :=
  let count := Z.of_nat (length rects) in
  let waste := total_waste rects in
  mk_report count waste
    (100 * waste / IZR (count * LARGE_RECT_WIDTH))
    (map packed rects).

(** The rectangles when the loop of lines 103-122 is left. *)
Definition packed_rects (small_widths : list R) : list large_rect :=
  pack_loop (qsort_desc small_widths) [].

Definition pack_rectangles (small_widths : list R) : packing_report :=
  report_of (packed_rects small_widths).

(** The rectangles after the first [k] rounds of the loop. *)
Definition rects_after (k : nat) (small_widths : list R)
    : list large_rect :=
  pack_loop (firstn k (qsort_desc small_widths)) [].

End LargeRectangles.

(** The two macros of the program. *)
Definition LARGE_RECT_WIDTH : Z := 360.
Definition HEIGHT : Z := 36.

(** ** [main] (lines 172-198) *)

Definition radii : list R :=
  [9 / 2; 9; 3; 6; 3 / 2; 3; 6; 6; 3; 2; 3 / 2; 6; 6; 5 / 2; 6; 6; 3 / 2;
   5 / 2; 6; 6; 6; 6].

Definition num_circles : list Z :=
  [25; 15; 50; 10; 120; 10; 100; 4; 50; 50; 15; 40; 40; 50; 7; 50; 100; 40;
   2; 8; 12; 4]%Z.

(** The first loop of [main]: one call of [compute_min_width] for each
    radius with its count, the widths kept in [best_widths]. *)
Fixpoint best_widths (fuel : nat) (radii : list R) (num_circles : list Z)
    : option (list R) :=
  match radii, num_circles with
  | r :: radii', n :: num_circles' =>
      match compute_min_width fuel r HEIGHT n with
      | None => None
      | Some res =>
          match best_widths fuel radii' num_circles' with
          | None => None
          | Some ws => Some (best_width res :: ws)
          end
      end
  | _, _ => Some []
  end.

Definition main (fuel : nat) : option packing_report :=
  match best_widths fuel radii num_circles with
  | None => None
  | Some ws =>
      Some (pack_rectangles LARGE_RECT_WIDTH
              (adjust_best_widths LARGE_RECT_WIDTH ws))
  end.

(** ** Notions used in the statements *)

(** The column count at which the capacity first reaches [n]. *)
Definition first_reaching (rows n c : Z) : Prop :=
  (0 <= c)%Z /\ (n <= pointy_capacity rows c)%Z /\
  forall c', (0 <= c' < c)%Z -> (pointy_capacity rows c' < n)%Z.

(** [w] is the least of [a], [b] and [c]. *)
Definition least_of_three (w a b c : R) : Prop :=
  w <= a /\ w <= b /\ w <= c /\ (w = a \/ w = b \/ w = c).

(** The total length of a list of strips. *)
Definition sum_widths (l : list R) : R := fold_right Rplus 0 l.

(** The array is in descending order after [qsort]. *)
Inductive descending : list R -> Prop :=
| descending_nil : descending []
| descending_one : forall x, descending [x]
| descending_cons : forall x y l,
    y <= x -> descending (y :: l) -> descending (x :: y :: l).

(** The bookkeeping of one rectangle: what is left is the capacity less
    the strips it holds, and it is not negative. *)
Definition rect_ok (C : Z) (b : large_rect) : Prop :=
  remaining_space b = IZR C - sum_widths (packed b)
  /\ 0 <= remaining_space b.

(** The strips held by all rectangles, rectangle after rectangle. *)
Definition placed (rects : list large_rect) : list R :=
  concat (map packed rects).

(** The number of widenings at which the flat-topped capacity first
    reaches [n]. *)
Definition flat_first_reaching (r : R) (rows n j : Z) : Prop :=
  (0 <= j)%Z /\ (n <= flat_capacity r rows (IZR j * (2 * r)))%Z /\
  forall j', (0 <= j' < j)%Z ->
    (flat_capacity r rows (IZR j' * (2 * r)) < n)%Z.

(** No strip of a rectangle fits in what is left of a rectangle opened
    before it. *)
Fixpoint no_earlier_fit (rects : list large_rect) : Prop :=
  match rects with
  | [] => True
  | b :: rest =>
      (forall b' s, In b' rest -> In s (packed b') -> remaining_space b < s)
      /\ no_earlier_fit rest
  end.

(** ** Facts about the C operations *)

(** Settles the comparisons of two given numbers met in the goal. *)
Ltac settle_comparisons :=
  repeat match goal with
    | |- context [Rlt_dec ?a ?b] =>
        destruct (Rlt_dec a b); [try (exfalso; lra) | try (exfalso; lra)]
    | |- context [Rle_dec ?a ?b] =>
        destruct (Rle_dec a b); [try (exfalso; lra) | try (exfalso; lra)]
    end.


Lemma double_to_int_floor (x : R) :
  0 <= x -> C.double_to_int x = Zfloor x.
Proof.
  intros Hx. unfold C.double_to_int.
  destruct (Rle_dec 0 x) as [_ | Hn]; [reflexivity | contradiction].
Qed.

Lemma double_to_int_between (z : Z) (x : R) :
  (0 <= z)%Z -> IZR z <= x < IZR z + 1 -> C.double_to_int x = z.
Proof.
  intros Hz Hx.
  assert (0 <= IZR z) by (apply IZR_le; assumption).
  rewrite double_to_int_floor by lra.
  apply Zfloor_eq; assumption.
Qed.

Lemma double_to_int_neg_small (x : R) :
  -1 < x <= 0 -> C.double_to_int x = 0%Z.
Proof.
  intros Hx. unfold C.double_to_int.
  destruct (Rle_dec 0 x) as [Hp | Hn].
  - apply Zfloor_eq. simpl. lra.
  - apply Zceil_eq. simpl. lra.
Qed.

Lemma double_to_int_nonpos (x : R) :
  x <= 0 -> (C.double_to_int x <= 0)%Z.
Proof.
  intros Hx. unfold C.double_to_int.
  destruct (Rle_dec 0 x) as [Hp | Hn].
  - assert (x = 0) by lra. subst x. rewrite (ZfloorZ 0). lia.
  - pose proof (Zceil_bound x) as Hc.
    assert (Zceil x < 1)%Z by (apply lt_IZR; lra). lia.
Qed.

Lemma double_to_int_lt_1 (x : R) :
  x < 1 -> (C.double_to_int x <= 0)%Z.
Proof.
  intros Hx. destruct (Rle_dec x 0) as [Hle | Hgt].
  - apply double_to_int_nonpos; assumption.
  - rewrite (double_to_int_between 0 x); simpl; try lia; lra.
Qed.

Lemma double_to_int_ge_1 (x : R) :
  (1 <= C.double_to_int x)%Z <-> 1 <= x.
Proof.
  split.
  - intros H. destruct (Rle_dec 1 x) as [Hge | Hlt]; [assumption | exfalso].
    assert (C.double_to_int x <= 0)%Z by (apply double_to_int_lt_1; lra).
    lia.
  - intros H. rewrite double_to_int_floor by lra.
    apply Zfloor_lub. assumption.
Qed.

Lemma ltb_true (x y : R) : C.ltb x y = true <-> x < y.
Proof.
  unfold C.ltb. destruct (Rlt_dec x y); split; intros; try assumption;
    try reflexivity; try discriminate; contradiction.
Qed.

Lemma ltb_false (x y : R) : C.ltb x y = false <-> y <= x.
Proof.
  unfold C.ltb. destruct (Rlt_dec x y); split; intros; try reflexivity;
    try discriminate; lra.
Qed.

Lemma geb_true (x y : R) : C.geb x y = true <-> y <= x.
Proof.
  unfold C.geb. destruct (Rle_dec y x); split; intros; try assumption;
    try reflexivity; try discriminate; contradiction.
Qed.

Lemma geb_false (x y : R) : C.geb x y = false <-> x < y.
Proof.
  unfold C.geb. destruct (Rle_dec y x); split; intros; try reflexivity;
    try discriminate; lra.
Qed.

Lemma fmin_le_l (x y : R) : C.fmin x y <= x.
Proof. unfold C.fmin. destruct (Rle_dec x y); lra. Qed.

Lemma fmin_le_r (x y : R) : C.fmin x y <= y.
Proof. unfold C.fmin. destruct (Rle_dec x y); lra. Qed.

Lemma fmin_cases (x y : R) : C.fmin x y = x \/ C.fmin x y = y.
Proof. unfold C.fmin. destruct (Rle_dec x y); auto. Qed.

(** The [for] loop adds the value of its last round at the end. *)
Lemma for_add_last (k : nat) (body : Z -> Z) :
  forall i acc,
    C.for_add (S k) i body acc
    = (C.for_add k i body acc + body (i + Z.of_nat k))%Z.
Proof.
  induction k as [| k IH]; intros i acc.
  - simpl. f_equal. f_equal. lia.
  - change (C.for_add (S (S k)) i body acc)
      with (C.for_add (S k) (i + 1)%Z body (acc + body i)%Z).
    rewrite IH. simpl C.for_add at 2. f_equal. f_equal. lia.
Qed.

Lemma for_upto_0 (body : Z -> Z) (bound : Z) :
  (bound <= 0)%Z -> C.for_upto bound body = 0%Z.
Proof.
  intros H. unfold C.for_upto.
  replace (Z.to_nat bound) with O by lia. reflexivity.
Qed.

Lemma for_upto_succ (body : Z -> Z) (bound : Z) :
  (0 <= bound)%Z ->
  C.for_upto (bound + 1) body = (C.for_upto bound body + body bound)%Z.
Proof.
  intros H. unfold C.for_upto.
  replace (Z.to_nat (bound + 1)) with (S (Z.to_nat bound)) by lia.
  rewrite for_add_last. f_equal. f_equal. lia.
Qed.

(** A loop whose rounds add [a] at even and [b] at odd indices. *)
Lemma for_upto_alternate (a b : Z) (body : Z -> Z) :
  (forall i, (0 <= i)%Z ->
     body i = if (Z.rem i 2 =? 0)%Z then a else b) ->
  forall bound, (0 <= bound)%Z ->
    C.for_upto bound body = (a * ((bound + 1) / 2) + b * (bound / 2))%Z.
Proof.
  intros Hbody bound Hb.
  pattern bound. apply natlike_ind; [| | assumption].
  - rewrite for_upto_0 by lia.
    change ((0 + 1) / 2)%Z with 0%Z. change (0 / 2)%Z with 0%Z. ring.
  - intros x Hx IH. unfold Z.succ. rewrite for_upto_succ by assumption.
    rewrite IH, Hbody by assumption.
    rewrite Z.rem_mod_nonneg by lia.
    destruct (Z.eqb_spec (x mod 2) 0) as [He | Hne].
    + assert (E1 : ((x + 1) / 2 = x / 2)%Z)
        by (Z.div_mod_to_equations; lia).
      assert (E2 : ((x + 1 + 1) / 2 = x / 2 + 1)%Z)
        by (Z.div_mod_to_equations; lia).
      rewrite E1, E2. ring.
    + assert (E1 : ((x + 1) / 2 = x / 2 + 1)%Z)
        by (Z.div_mod_to_equations; lia).
      assert (E2 : ((x + 1 + 1) / 2 = x / 2 + 1)%Z)
        by (Z.div_mod_to_equations; lia).
      rewrite E1, E2. ring.
Qed.

(** ** The flat-topped loop *)

Section FlatTopped.

Variable r : R.
Hypothesis r_pos : 0 < r.

(** The widths the loop visits are the multiples of [2 * r]. *)
Lemma flat_width_step (k : Z) :
  IZR k * (2 * r) + 2 * r = IZR (k + 1) * (2 * r).
Proof using Type. rewrite plus_IZR. ring. Qed.

Lemma flat_row_even (k i : Z) :
  (0 <= k)%Z -> Z.rem i 2 = 0%Z -> flat_row r (IZR k * (2 * r)) i = k.
Proof using r_pos.
  intros Hk Hi. unfold flat_row. rewrite Hi. simpl.
  replace (IZR k * (2 * r) / (2 * r)) with (IZR k) by (field; lra).
  apply double_to_int_between; [assumption | lra].
Qed.

Lemma flat_row_odd (k i : Z) :
  (0 <= k)%Z -> Z.rem i 2 <> 0%Z ->
  flat_row r (IZR k * (2 * r)) i = Z.max (k - 1) 0.
Proof using r_pos.
  intros Hk Hi. unfold flat_row.
  destruct (Z.eqb_spec (Z.rem i 2) 0) as [He | _]; [contradiction |].
  replace ((IZR k * (2 * r) - r) / (2 * r)) with (IZR k - / 2)
    by (field; lra).
  destruct (Z.eq_dec k 0) as [-> | Hne].
  - rewrite double_to_int_neg_small by (simpl; lra). reflexivity.
  - rewrite Z.max_l by lia.
    apply double_to_int_between; [lia |].
    rewrite minus_IZR. lra.
Qed.

(** Capacity of [rows] rows after [k] widenings: [k] circles in each
    even row, one less in each odd row. *)
Lemma flat_capacity_closed (rows k : Z) :
  (0 <= rows)%Z -> (0 <= k)%Z ->
  flat_capacity r rows (IZR k * (2 * r))
  = (k * ((rows + 1) / 2) + Z.max (k - 1) 0 * (rows / 2))%Z.
Proof using r_pos.
  intros Hrows Hk. unfold flat_capacity.
  apply for_upto_alternate; [| assumption].
  intros i Hi. destruct (Z.eqb_spec (Z.rem i 2) 0) as [He | Hne].
  - apply flat_row_even; assumption.
  - apply flat_row_odd; assumption.
Qed.

Lemma flat_capacity_no_rows (rows : Z) (w : R) :
  (rows <= 0)%Z -> flat_capacity r rows w = 0%Z.
Proof using Type. intros H. apply for_upto_0. assumption. Qed.

(** With at least one row each widening adds at least one circle. *)
Lemma flat_capacity_grows (rows k : Z) :
  (1 <= rows)%Z -> (0 <= k)%Z ->
  (flat_capacity r rows (IZR k * (2 * r))
   < flat_capacity r rows (IZR (k + 1) * (2 * r)))%Z.
Proof using r_pos.
  intros Hrows Hk. rewrite !flat_capacity_closed by lia.
  assert (1 <= (rows + 1) / 2)%Z by (Z.to_euclidean_division_equations; lia).
  assert (0 <= rows / 2)%Z by (Z.to_euclidean_division_equations; lia).
  assert (Z.max (k - 1) 0 <= Z.max (k + 1 - 1) 0)%Z by lia.
  nia.
Qed.

Lemma flat_capacity_lower (rows k : Z) :
  (1 <= rows)%Z -> (0 <= k)%Z ->
  (k <= flat_capacity r rows (IZR k * (2 * r)))%Z.
Proof using r_pos.
  intros Hrows Hk. rewrite flat_capacity_closed by lia.
  assert (1 <= (rows + 1) / 2)%Z by (Z.to_euclidean_division_equations; lia).
  assert (0 <= rows / 2)%Z by (Z.to_euclidean_division_equations; lia).
  assert (0 <= Z.max (k - 1) 0)%Z by lia.
  nia.
Qed.

(** The loop is left after at most [n] widenings when there is a row. *)
Lemma flat_loop_terminates (rows n : Z) :
  (1 <= rows)%Z ->
  forall fuel k total,
    (0 <= k)%Z -> (k <= total)%Z -> (n - k <= Z.of_nat fuel)%Z ->
    exists j, (k <= j)%Z /\
      flat_loop fuel r rows n total (IZR k * (2 * r))
      = Some (IZR j * (2 * r)).
Proof using r_pos.
  intros Hrows fuel. induction fuel as [| fuel IH]; intros k total Hk Ht Hf.
  - exists k. split; [lia |]. simpl.
    destruct (Z.ltb_spec total n); [lia | reflexivity].
  - simpl. destruct (Z.ltb_spec total n) as [Hlt | Hge].
    + rewrite flat_width_step.
      destruct (IH (k + 1)%Z
                  (flat_capacity r rows (IZR (k + 1) * (2 * r))))
        as [j [Hj Hrun]]; try lia.
      * apply flat_capacity_lower; lia.
      * exists j. split; [lia | exact Hrun].
    + exists k. split; [lia | reflexivity].
Qed.

(** Without a row the capacity stays 0 and the loop is never left. *)
Lemma flat_loop_diverges (rows n : Z) :
  (rows <= 0)%Z -> (1 <= n)%Z ->
  forall fuel w, flat_loop fuel r rows n 0%Z w = None.
Proof using Type.
  intros Hrows Hn fuel. induction fuel as [| fuel IH]; intros w; simpl.
  - destruct (Z.ltb_spec 0 n); [reflexivity | lia].
  - destruct (Z.ltb_spec 0 n); [| lia].
    rewrite flat_capacity_no_rows by assumption. apply IH.
Qed.

End FlatTopped.

Lemma flat_loop_more_fuel (r : R) (rows n : Z) :
  forall fuel fuel' total w res,
    flat_loop fuel r rows n total w = Some res ->
    (fuel <= fuel')%nat ->
    flat_loop fuel' r rows n total w = Some res.
Proof.
  induction fuel as [| fuel IH]; intros fuel' total w res Hrun Hle.
  - simpl in Hrun. destruct fuel'; simpl;
      destruct (total <? n)%Z; congruence.
  - destruct fuel' as [| fuel']; [lia |].
    simpl in *. destruct (total <? n)%Z; [| assumption].
    apply IH; [assumption | lia].
Qed.

(** ** The pointy-topped loop *)

Lemma pointy_capacity_0 (rows : Z) : pointy_capacity rows 0 = 0%Z.
Proof. reflexivity. Qed.

(** One more column adds [rows] circles when its index is even and
    [max (rows - 1) 0] when it is odd. *)
Lemma pointy_capacity_succ (rows c : Z) :
  (0 <= c)%Z ->
  pointy_capacity rows (c + 1)
  = (pointy_capacity rows c
     + if Z.even c then rows else Z.max (rows - 1) 0)%Z.
Proof.
  intros Hc. unfold pointy_capacity. rewrite for_upto_succ by assumption.
  f_equal. unfold pointy_column.
  rewrite Z.rem_mod_nonneg by lia. rewrite Zeven_mod.
  destruct (Z.eqb_spec (c mod 2) 0) as [He | Hne]; [reflexivity |].
  destruct (Z.gtb_spec rows 0); lia.
Qed.

Lemma pointy_capacity_closed (rows c : Z) :
  (0 <= c)%Z ->
  pointy_capacity rows c
  = (rows * ((c + 1) / 2) + Z.max (rows - 1) 0 * (c / 2))%Z.
Proof.
  intros Hc. unfold pointy_capacity.
  apply for_upto_alternate; [| assumption].
  intros i Hi. unfold pointy_column.
  destruct (Z.eqb_spec (Z.rem i 2) 0); [reflexivity |].
  destruct (Z.gtb_spec rows 0); lia.
Qed.

Lemma pointy_capacity_no_rows (rows c : Z) :
  (rows <= 0)%Z -> (pointy_capacity rows c <= 0)%Z.
Proof.
  intros Hrows. destruct (Z.le_gt_cases 0 c) as [Hc | Hc].
  - rewrite pointy_capacity_closed by assumption.
    rewrite Z.max_r by lia.
    assert (0 <= (c + 1) / 2)%Z by (Z.to_euclidean_division_equations; lia).
    nia.
  - unfold pointy_capacity. rewrite for_upto_0 by lia. lia.
Qed.

Lemma pointy_capacity_mono (rows c : Z) :
  (1 <= rows)%Z -> (0 <= c)%Z ->
  (pointy_capacity rows c <= pointy_capacity rows (c + 1))%Z.
Proof.
  intros Hrows Hc. rewrite pointy_capacity_succ by assumption.
  destruct (Z.even c); lia.
Qed.

Lemma pointy_capacity_two (rows c : Z) :
  (1 <= rows)%Z -> (0 <= c)%Z ->
  pointy_capacity rows (c + 2)
  = (pointy_capacity rows c + (2 * rows - 1))%Z.
Proof.
  intros Hrows Hc. replace (c + 2)%Z with (c + 1 + 1)%Z by lia.
  rewrite !pointy_capacity_succ by lia.
  replace (c + 1)%Z with (Z.succ c) by lia. rewrite Z.even_succ.
  rewrite <- Z.negb_even. destruct (Z.even c); cbn [negb]; lia.
Qed.

Lemma pointy_capacity_lower (rows c : Z) :
  (1 <= rows)%Z -> (0 <= c)%Z ->
  (c <= 2 * pointy_capacity rows c)%Z.
Proof.
  intros Hrows Hc. rewrite pointy_capacity_closed by assumption.
  assert (c <= 2 * ((c + 1) / 2))%Z by (Z.to_euclidean_division_equations; lia).
  assert (0 <= c / 2)%Z by (Z.to_euclidean_division_equations; lia).
  nia.
Qed.

(** The loop is left with [columns_pointy] one past the first column
    count whose capacity reaches [n]: the count is raised after the
    capacity was computed. *)
Lemma pointy_loop_exit (rows n : Z) :
  (1 <= rows)%Z ->
  forall fuel c,
    (0 <= c)%Z ->
    (forall c', (0 <= c' < c)%Z -> (pointy_capacity rows c' < n)%Z) ->
    (2 * n - c <= Z.of_nat fuel)%Z ->
    exists c_first, (c <= c_first)%Z /\ first_reaching rows n c_first /\
      pointy_loop fuel rows n (pointy_capacity rows c) (c + 1)
      = Some (c_first + 1)%Z.
Proof.
  intros Hrows fuel. induction fuel as [| fuel IH]; intros c Hc Hbelow Hf.
  - exists c. pose proof (pointy_capacity_lower rows c Hrows Hc).
    simpl. destruct (Z.ltb_spec (pointy_capacity rows c) n); [lia |].
    repeat split; try assumption; lia.
  - simpl. destruct (Z.ltb_spec (pointy_capacity rows c) n) as [Hlt | Hge].
    + destruct (IH (c + 1)%Z) as [c1 [Hc1 [Hfirst Hrun]]]; try lia.
      * intros c' Hc'. destruct (Z.eq_dec c' c) as [-> | Hne];
          [assumption | apply Hbelow; lia].
      * exists c1. repeat split; try apply Hfirst; try lia. exact Hrun.
    + exists c. repeat split; try assumption; lia.
Qed.

Lemma pointy_loop_diverges (rows n : Z) :
  (rows <= 0)%Z -> (1 <= n)%Z ->
  forall fuel total c,
    (total <= 0)%Z -> pointy_loop fuel rows n total c = None.
Proof.
  intros Hrows Hn fuel. induction fuel as [| fuel IH]; intros total c Ht;
    simpl; destruct (Z.ltb_spec total n); try lia; [reflexivity |].
  apply IH. apply pointy_capacity_no_rows. assumption.
Qed.

Lemma pointy_loop_more_fuel (rows n : Z) :
  forall fuel fuel' total c res,
    pointy_loop fuel rows n total c = Some res ->
    (fuel <= fuel')%nat ->
    pointy_loop fuel' rows n total c = Some res.
Proof.
  induction fuel as [| fuel IH]; intros fuel' total c res Hrun Hle.
  - simpl in Hrun. destruct fuel'; simpl;
      destruct (total <? n)%Z; congruence.
  - destruct fuel' as [| fuel']; [lia |].
    simpl in *. destruct (total <? n)%Z; [| assumption].
    apply IH; [assumption | lia].
Qed.

Lemma first_reaching_unique (rows n c1 c2 : Z) :
  first_reaching rows n c1 -> first_reaching rows n c2 -> c1 = c2.
Proof.
  intros [H1 [H1r H1b]] [H2 [H2r H2b]].
  destruct (Z.lt_trichotomy c1 c2) as [Hlt | [Heq | Hgt]]; [| assumption |].
  - specialize (H2b c1). lia.
  - specialize (H1b c2). lia.
Qed.

(** ** The solver as a whole *)

Lemma sqrt3_bounds : 17 / 10 < sqrt 3 < 7 / 4.
Proof.
  assert (Hs : sqrt 3 * sqrt 3 = 3) by (apply sqrt_sqrt; lra).
  assert (Hp : 0 <= sqrt 3) by apply sqrt_pos.
  split; nra.
Qed.

Lemma rows_flat_ge_1 (r : R) (height : Z) :
  0 < r -> ((1 <= rows_flat r height)%Z <-> 2 * r <= IZR height).
Proof.
  intros Hr. unfold rows_flat. rewrite double_to_int_ge_1.
  split; intros H.
  - apply (Rmult_le_compat_r (2 * r)) in H; [| lra].
    replace (IZR height / (2 * r) * (2 * r)) with (IZR height) in H
      by (field; lra).
    lra.
  - apply (Rmult_le_reg_r (2 * r)); [lra |].
    replace (IZR height / (2 * r) * (2 * r)) with (IZR height)
      by (field; lra).
    lra.
Qed.

Lemma rows_pointy_ge_1 (r : R) (height : Z) :
  0 < r -> ((1 <= rows_pointy r height)%Z <-> sqrt 3 * r <= IZR height).
Proof.
  intros Hr. pose proof sqrt3_bounds as Hs.
  assert (Hd : 0 < sqrt 3 * r) by nra.
  unfold rows_pointy. rewrite double_to_int_ge_1.
  split; intros H.
  - apply (Rmult_le_compat_r (sqrt 3 * r)) in H; [| lra].
    replace (IZR height / (sqrt 3 * r) * (sqrt 3 * r)) with (IZR height) in H
      by (field; lra).
    lra.
  - apply (Rmult_le_reg_r (sqrt 3 * r)); [lra |].
    replace (IZR height / (sqrt 3 * r) * (sqrt 3 * r)) with (IZR height)
      by (field; lra).
    lra.
Qed.

(** The flat-topped rows are spaced wider than the pointy-topped ones, so
    a height with a flat-topped row has a pointy-topped row too. *)
Lemma rows_flat_rows_pointy (r : R) (height : Z) :
  0 < r -> (1 <= rows_flat r height)%Z -> (1 <= rows_pointy r height)%Z.
Proof.
  intros Hr H. apply rows_flat_ge_1 in H; [| assumption].
  apply rows_pointy_ge_1; [assumption |].
  pose proof sqrt3_bounds. nra.
Qed.

Lemma width_flat_returns (r : R) (height n : Z) (fuel : nat) :
  0 < r -> (1 <= rows_flat r height)%Z -> (n <= Z.of_nat fuel)%Z ->
  exists wf, width_flat fuel r height n = Some wf.
Proof.
  intros Hr Hrows Hf. unfold width_flat.
  destruct (flat_loop_terminates r Hr (rows_flat r height) n Hrows
              fuel 0%Z 0%Z) as [j [_ Hrun]]; try lia.
  replace (IZR 0 * (2 * r)) with 0 in Hrun by ring.
  eauto.
Qed.

Lemma columns_pointy_returns (r : R) (height n : Z) (fuel : nat) :
  (1 <= rows_pointy r height)%Z -> (2 * n <= Z.of_nat fuel)%Z ->
  exists c, first_reaching (rows_pointy r height) n c /\
    columns_pointy fuel r height n = Some (c + 1)%Z.
Proof.
  intros Hrows Hf.
  destruct (pointy_loop_exit (rows_pointy r height) n Hrows fuel 0%Z)
    as [c [_ [Hfirst Hrun]]]; try lia.
  exists c. split; [assumption | exact Hrun].
Qed.

(** With a flat-topped row the call returns, whatever the count. *)
Lemma compute_min_width_returns (r : R) (height n : Z) :
  0 < r -> (1 <= rows_flat r height)%Z ->
  forall fuel, (Z.to_nat (2 * n) <= fuel)%nat ->
    exists res, compute_min_width fuel r height n = Some res.
Proof.
  intros Hr Hrows fuel Hf.
  destruct (width_flat_returns r height n fuel Hr Hrows) as [wf Hwf];
    [lia |].
  destruct (columns_pointy_returns r height n fuel) as [c [_ Hc]];
    [apply rows_flat_rows_pointy; assumption | lia |].
  unfold compute_min_width, width_pointy. rewrite Hwf, Hc. eauto.
Qed.

(** With a flat-topped row both strategies produce a width. *)
Lemma strategies_return (r : R) (height n : Z) :
  0 < r -> (1 <= rows_flat r height)%Z ->
  forall fuel, (Z.to_nat (2 * n) <= fuel)%nat ->
    exists wf wp,
      width_flat fuel r height n = Some wf /\
      width_pointy fuel r height n = Some wp.
Proof.
  intros Hr Hrows fuel Hf.
  destruct (width_flat_returns r height n fuel Hr Hrows) as [wf Hwf];
    [lia |].
  destruct (columns_pointy_returns r height n fuel) as [c [_ Hc]];
    [apply rows_flat_rows_pointy; assumption | lia |].
  exists wf, (pointy_formula r (c + 1)). split; [assumption |].
  unfold width_pointy. rewrite Hc. reflexivity.
Qed.

(** Without a flat-topped row and with a circle to place the call never
    returns: the first loop is not left. *)
Lemma compute_min_width_diverges (r : R) (height n : Z) :
  (rows_flat r height <= 0)%Z -> (1 <= n)%Z ->
  forall fuel, compute_min_width fuel r height n = None.
Proof.
  intros Hrows Hn fuel. unfold compute_min_width, width_flat.
  rewrite flat_loop_diverges by assumption. reflexivity.
Qed.

Lemma choose_width_least (wf wp wr : R) :
  least_of_three (choose_width wf wp wr) wf wp wr.
Proof.
  unfold least_of_three, choose_width, C.fmin.
  destruct (Rle_dec wf wp); destruct (Rle_dec _ wr); repeat split;
    try lra; auto.
Qed.

Lemma choose_width_Rmin (wf wp wr : R) :
  choose_width wf wp wr = Rmin wr (Rmin wf wp).
Proof.
  unfold choose_width, C.fmin, Rmin.
  destruct (Rle_dec wf wp); destruct (Rle_dec _ wr); destruct (Rle_dec wr _);
    lra.
Qed.

Lemma reported_flat (wf wp wr : R) :
  packing_of (smallest_width wf wp wr) = flat_topped <-> wf < wp /\ wf < wr.
Proof.
  unfold smallest_width, C.ltb.
  destruct (Rlt_dec wf wp); destruct (Rlt_dec wf wr);
    destruct (Rlt_dec wp wf); destruct (Rlt_dec wp wr); simpl;
    split; intros H; try discriminate; try reflexivity; try lra;
    try (split; lra).
Qed.

Lemma reported_pointy (wf wp wr : R) :
  packing_of (smallest_width wf wp wr) = pointy_topped
  <-> wp < wf /\ wp < wr.
Proof.
  unfold smallest_width, C.ltb.
  destruct (Rlt_dec wf wp); destruct (Rlt_dec wf wr);
    destruct (Rlt_dec wp wf); destruct (Rlt_dec wp wr); simpl;
    split; intros H; try discriminate; try reflexivity; try lra;
    try (split; lra).
Qed.

Lemma reported_regular (wf wp wr : R) :
  packing_of (smallest_width wf wp wr) = regular
  <-> ~ (wf < wp /\ wf < wr) /\ ~ (wp < wf /\ wp < wr).
Proof.
  unfold smallest_width, C.ltb.
  destruct (Rlt_dec wf wp); destruct (Rlt_dec wf wr);
    destruct (Rlt_dec wp wf); destruct (Rlt_dec wp wr); simpl;
    split; intros H; try discriminate; try reflexivity;
    try (split; intros [? ?]; lra);
    try (exfalso; destruct H as [H1 H2]; (apply H1 + apply H2); split; lra).
Qed.

Lemma rows_regular_ge_1 (r : R) (height : Z) : (1 <= rows_regular r height)%Z.
Proof.
  unfold rows_regular.
  destruct (Z.ltb_spec (C.double_to_int (IZR height / (2 * r))) 1); lia.
Qed.

Lemma columns_regular_nonpos (r : R) (height n : Z) :
  (n <= 0)%Z -> (columns_regular r height n <= 0)%Z.
Proof.
  intros Hn. unfold columns_regular.
  pose proof (rows_regular_ge_1 r height) as Hrows.
  set (rows := rows_regular r height) in *.
  destruct (Z.le_gt_cases 0 (n + rows - 1)) as [Hp | Hneg].
  - rewrite Z.quot_small by lia. lia.
  - apply Z.quot_le_upper_bound; lia.
Qed.

(** With no circle to place neither loop is entered. *)
Lemma compute_min_width_no_circles (r : R) (height n : Z) (fuel : nat) :
  0 < r -> (n <= 0)%Z ->
  compute_min_width fuel r height n
  = Some (mk_result (width_regular r height n) regular)
  /\ width_regular r height n <= 0.
Proof.
  intros Hr Hn.
  assert (Hwr : width_regular r height n <= 0).
  { unfold width_regular.
    pose proof (columns_regular_nonpos r height n Hn) as Hc.
    apply IZR_le in Hc. nra. }
  split; [| assumption].
  assert (Hwf : width_flat fuel r height n = Some 0).
  { unfold width_flat. destruct fuel; simpl;
      destruct (Z.ltb_spec 0 n); try lia; reflexivity. }
  assert (Hwp : width_pointy fuel r height n = Some (2 * r)).
  { unfold width_pointy, columns_pointy. destruct fuel; simpl;
      destruct (Z.ltb_spec 0 n); try lia; reflexivity. }
  unfold compute_min_width. rewrite Hwf, Hwp. f_equal. f_equal.
  - unfold choose_width, C.fmin.
    destruct (Rle_dec 0 (2 * r)); [| lra].
    destruct (Rle_dec 0 (width_regular r height n)); lra.
  - apply reported_regular. split; intros [? ?]; lra.
Qed.

Lemma rows_flat_no_height (r : R) (height : Z) :
  0 < r -> (height <= 0)%Z -> (rows_flat r height <= 0)%Z.
Proof.
  intros Hr Hh. apply double_to_int_nonpos.
  apply IZR_le in Hh. unfold Rdiv.
  assert (0 < / (2 * r)) by (apply Rinv_0_lt_compat; lra).
  nra.
Qed.

(** ** The width solver: selection, validation, termination *)




(** C8 (as the code has it).  The arguments are not checked and there is
    no error result.  With radius > 0: a call with count <= 0 returns at
    once, for any height, the regular width, which is not positive, and
    reports the regular packing; a call with count >= 1 and height <= 0
    returns nothing. *)
Theorem arguments_not_checked (r : R) (height n : Z) :
  0 < r ->
  ((n <= 0)%Z ->
   forall fuel,
     compute_min_width fuel r height n
     = Some (mk_result (width_regular r height n) regular)
     /\ width_regular r height n <= 0)
  /\ ((1 <= n)%Z -> (height <= 0)%Z ->
      forall fuel, compute_min_width fuel r height n = None).
Proof.
  intros Hr. split.
  - intros Hn fuel. apply compute_min_width_no_circles; assumption.
  - intros Hn Hh. apply compute_min_width_diverges; [| assumption].
    apply rows_flat_no_height; assumption.
Qed.


(** ** The pointy-topped strategy *)

Lemma width_pointy_more_fuel (r : R) (height n : Z) (fuel fuel' : nat)
    (w : R) :
  width_pointy fuel r height n = Some w -> (fuel <= fuel')%nat ->
  width_pointy fuel' r height n = Some w.
Proof.
  unfold width_pointy, columns_pointy. intros H Hle.
  destruct (pointy_loop fuel (rows_pointy r height) n 0 1) as [c |] eqn:E;
    [| discriminate].
  rewrite (pointy_loop_more_fuel _ _ _ _ _ _ _ E Hle). assumption.
Qed.

Lemma rows_pointy_floor (r : R) (height : Z) :
  0 < r -> (0 < height)%Z ->
  rows_pointy r height = Zfloor (IZR height / (r * sqrt 3)).
Proof.
  intros Hr Hh. unfold rows_pointy.
  replace (sqrt 3 * r) with (r * sqrt 3) by ring.
  apply double_to_int_floor.
  pose proof sqrt3_bounds. apply IZR_lt in Hh. unfold Rdiv.
  assert (0 < / (r * sqrt 3)) by (apply Rinv_0_lt_compat; nra).
  nra.
Qed.

Lemma rows_pointy_6_36 : rows_pointy 6 36 = 3%Z.
Proof.
  pose proof sqrt3_bounds as Hs. unfold rows_pointy.
  apply double_to_int_between; [lia |].
  assert (Hd : 0 < sqrt 3 * 6) by lra.
  split.
  - apply (Rmult_le_reg_r (sqrt 3 * 6)); [assumption |].
    replace (36 / (sqrt 3 * 6) * (sqrt 3 * 6)) with 36 by (field; lra).
    lra.
  - apply (Rmult_lt_reg_r (sqrt 3 * 6)); [assumption |].
    replace (36 / (sqrt 3 * 6) * (sqrt 3 * 6)) with 36 by (field; lra).
    lra.
Qed.

Lemma rows_pointy_6_12 : rows_pointy 6 12 = 1%Z.
Proof.
  pose proof sqrt3_bounds as Hs. unfold rows_pointy.
  apply double_to_int_between; [lia |].
  assert (Hd : 0 < sqrt 3 * 6) by lra.
  split.
  - apply (Rmult_le_reg_r (sqrt 3 * 6)); [assumption |].
    replace (12 / (sqrt 3 * 6) * (sqrt 3 * 6)) with 12 by (field; lra).
    lra.
  - apply (Rmult_lt_reg_r (sqrt 3 * 6)); [assumption |].
    replace (12 / (sqrt 3 * 6) * (sqrt 3 * 6)) with 12 by (field; lra).
    lra.
Qed.

Lemma rows_pointy_30_36 : (rows_pointy 30 36 <= 0)%Z.
Proof.
  pose proof sqrt3_bounds as Hs. unfold rows_pointy.
  apply double_to_int_lt_1.
  assert (Hd : 0 < sqrt 3 * 30) by lra.
  apply (Rmult_lt_reg_r (sqrt 3 * 30)); [assumption |].
  replace (36 / (sqrt 3 * 30) * (sqrt 3 * 30)) with 36 by (field; lra).
  lra.
Qed.

Lemma rows_flat_6_36 : rows_flat 6 36 = 3%Z.
Proof.
  unfold rows_flat. apply double_to_int_between; [lia |]. lra.
Qed.

Lemma rows_flat_20_36 : (rows_flat 20 36 <= 0)%Z.
Proof. unfold rows_flat. apply double_to_int_lt_1. lra. Qed.

Lemma width_pointy_6_36_4 :
  width_pointy 2 6 36 4 = Some (pointy_formula 6 3).
Proof.
  unfold width_pointy, columns_pointy. rewrite rows_pointy_6_36.
  reflexivity.
Qed.

Lemma pointy_formula_6 : pointy_formula 6 3 <> pointy_formula 6 2.
Proof.
  unfold pointy_formula. simpl. pose proof sqrt3_bounds. lra.
Qed.




(** ** Termination of the two growth loops *)




(** ** Concrete calls of the solver *)

Lemma width_flat_6_36_4 : width_flat 8 6 36 4 = Some (IZR 2 * (2 * 6)).
Proof.
  assert (Hr : 0 < 6) by lra.
  unfold width_flat. rewrite rows_flat_6_36. simpl flat_loop.
  replace (0 + 2 * 6) with (IZR 1 * (2 * 6)) by lra.
  rewrite (flat_capacity_closed 6 Hr 3 1) by lia.
  change (1 * ((3 + 1) / 2) + Z.max (1 - 1) 0 * (3 / 2) <? 4)%Z with true.
  cbv iota. rewrite (flat_width_step 6 1). change (1 + 1)%Z with 2%Z.
  rewrite (flat_capacity_closed 6 Hr 3 2) by lia.
  change (2 * ((3 + 1) / 2) + Z.max (2 - 1) 0 * (3 / 2) <? 4)%Z with false.
  reflexivity.
Qed.

Lemma width_pointy_8_6_36_4 :
  width_pointy 8 6 36 4 = Some (pointy_formula 6 3).
Proof.
  apply (width_pointy_more_fuel _ _ _ 2); [exact width_pointy_6_36_4 | lia].
Qed.

Lemma width_regular_6_36_4 : width_regular 6 36 4 = 24.
Proof.
  unfold width_regular, columns_regular, rows_regular.
  fold (rows_flat 6 36). rewrite rows_flat_6_36.
  change (Z.quot (4 + (if (3 <? 1)%Z then 1 else 3) - 1)
            (if (3 <? 1)%Z then 1 else 3))%Z with 2%Z.
  lra.
Qed.

(** Radius 6, height 36, four circles: 24 flat-topped, 12 + 6 * sqrt 3
    pointy-topped, 24 regular; the pointy-topped packing wins. *)
Example compute_min_width_6_36_4 :
  exists res,
    compute_min_width 8 6 HEIGHT 4 = Some res
    /\ best_width res = 12 + 6 * sqrt 3
    /\ reported res = pointy_topped.
Proof.
  pose proof sqrt3_bounds as Hs.
  unfold compute_min_width, HEIGHT.
  rewrite width_flat_6_36_4, width_pointy_8_6_36_4, width_regular_6_36_4.
  eexists. split; [reflexivity |].
  assert (Hp : pointy_formula 6 3 = 12 + 6 * sqrt 3).
  { unfold pointy_formula. change (3 =? 1)%Z with false. cbv iota.
    change (3 - 2)%Z with 1%Z. lra. }
  rewrite Hp. split.
  - cbn [best_width].
    destruct (choose_width_least (IZR 2 * (2 * 6)) (12 + 6 * sqrt 3) 24)
      as [Hf [Hq [Hg [E | [E | E]]]]]; lra.
  - cbn [reported]. apply reported_pointy. lra.
Qed.





(** C8, as stated, fails.  The call with radius 4.5, height 36 and count 0
    is not rejected: it returns the width 0 and reports the regular
    packing. *)
Lemma arguments_not_checked_counterexample :
  exists res,
    compute_min_width 0 (9 / 2) 36 0 = Some res
    /\ best_width res = 0 /\ reported res = regular.
Proof.
  destruct (compute_min_width_no_circles (9 / 2) 36 0 0) as [Hrun Hle];
    [lra | lia |].
  eexists. split; [exact Hrun |]. split; [| reflexivity].
  cbn [best_width]. unfold width_regular, columns_regular.
  assert (Hrows : rows_regular (9 / 2) 36 = 4%Z).
  { unfold rows_regular.
    rewrite (double_to_int_between 4) by (try lia; lra). reflexivity. }
  rewrite Hrows. replace (Z.quot (0 + 4 - 1) 4) with 0%Z by reflexivity.
  lra.
Qed.

Lemma arguments_not_checked_witness :
  (compute_min_width 0 (9 / 2) 36 0
   = Some (mk_result (width_regular (9 / 2) 36 0) regular)
   /\ width_regular (9 / 2) 36 0 <= 0)
  /\ (forall fuel, compute_min_width fuel (9 / 2) 0 1 = None).
Proof.
  split.
  - apply (proj1 (arguments_not_checked (9 / 2) 36 0 ltac:(lra))). lia.
  - apply (proj2 (arguments_not_checked (9 / 2) 0 1 ltac:(lra))); lia.
Defined.


(** ** Splitting the widths *)

Lemma sum_widths_app (l1 l2 : list R) :
  sum_widths (l1 ++ l2) = sum_widths l1 + sum_widths l2.
Proof.
  induction l1 as [| x l1 IH]; simpl.
  - lra.
  - rewrite IH. lra.
Qed.

Lemma sum_widths_repeat (x : R) (k : nat) :
  sum_widths (repeat x k) = INR k * x.
Proof.
  induction k as [| k IH].
  - simpl. lra.
  - rewrite S_INR. simpl repeat. simpl sum_widths. rewrite IH. lra.
Qed.

Lemma adjust_loop_concat (C : Z) (ws : list R) :
  forall acc,
    adjust_loop C ws acc = acc ++ concat (map (split_width C) ws).
Proof.
  induction ws as [| w ws IH]; intros acc; simpl.
  - rewrite app_nil_r. reflexivity.
  - rewrite IH, app_assoc. reflexivity.
Qed.

Section Splitter.

Variable C : Z.
Hypothesis C_pos : (0 < C)%Z.

Lemma split_width_fits (w : R) :
  w <= IZR C -> split_width C w = [w].
Proof using Type.
  intros Hw. unfold split_width, C.gtb.
  rewrite (proj2 (ltb_false (IZR C) w)) by assumption. reflexivity.
Qed.

(** A width above the capacity: full pieces, then what is left. *)
Lemma split_width_exceeds (w : R) :
  IZR C < w ->
  let parts := Zfloor (w / IZR C) in
  let remainder := w - IZR parts * IZR C in
  (1 <= parts)%Z /\ 0 <= remainder < IZR C /\
  split_width C w
  = repeat (IZR C) (Z.to_nat parts)
      ++ (if Rlt_dec 0 remainder then [remainder] else []).
Proof using C_pos.
  intros Hw parts remainder.
  assert (HC : 0 < IZR C) by (apply IZR_lt; assumption).
  assert (Hq : w / IZR C * IZR C = w) by (field; lra).
  assert (Hq1 : 1 <= w / IZR C).
  { apply (Rmult_le_reg_r (IZR C)); [assumption |]. rewrite Hq. lra. }
  pose proof (Zfloor_bound (w / IZR C)) as Hb. fold parts in Hb.
  assert (Hparts : (1 <= parts)%Z) by (apply Zfloor_lub; assumption).
  assert (Hrem : 0 <= remainder < IZR C).
  { unfold remainder. clear Hq1. clearbody parts. revert Hq Hb.
    generalize (w / IZR C). intros q Hq Hb. nra. }
  split; [assumption |]. split; [assumption |].
  unfold split_width, C.gtb.
  rewrite (proj2 (ltb_true (IZR C) w)) by assumption.
  rewrite double_to_int_floor by lra. fold parts.
  rewrite mult_IZR. fold remainder. unfold C.ltb.
  destruct (Rlt_dec 0 remainder); reflexivity.
Qed.

Lemma split_width_sum (w : R) : sum_widths (split_width C w) = w.
Proof using C_pos.
  destruct (Rle_dec w (IZR C)) as [Hle | Hgt].
  - rewrite split_width_fits by assumption. simpl. lra.
  - destruct (split_width_exceeds w) as [Hparts [Hrem ->]]; [lra |].
    rewrite sum_widths_app, sum_widths_repeat, INR_IZR_INZ.
    rewrite Z2Nat.id by lia.
    destruct (Rlt_dec 0 _) as [Hpos | Hzero]; simpl; lra.
Qed.

Lemma split_width_bounds (w : R) :
  0 < w -> Forall (fun s => 0 < s <= IZR C) (split_width C w).
Proof using C_pos.
  intros Hw. assert (HC : 0 < IZR C) by (apply IZR_lt; assumption).
  destruct (Rle_dec w (IZR C)) as [Hle | Hgt].
  - rewrite split_width_fits by assumption.
    constructor; [lra | constructor].
  - destruct (split_width_exceeds w) as [Hparts [Hrem ->]]; [lra |].
    apply Forall_app. split.
    + apply Forall_forall. intros s Hs.
      apply repeat_spec in Hs. subst s. lra.
    + destruct (Rlt_dec 0 _) as [Hpos | Hzero];
        [constructor; [lra | constructor] | constructor].
Qed.

End Splitter.



(** ** Placing the strips *)

Lemma Forall_firstn_of {A : Type} (P : A -> Prop) (l : list A) :
  Forall P l -> forall k, Forall P (firstn k l).
Proof.
  intros H. induction H as [| x l Hx Hl IH]; intros k.
  - rewrite firstn_nil. constructor.
  - destruct k as [| k]; simpl; [constructor |].
    constructor; [assumption | apply IH].
Qed.

Section Binner.

Variable C : Z.

Lemma insert_desc_perm (x : R) (l : list R) :
  Permutation (insert_desc x l) (x :: l).
Proof using Type.
  induction l as [| y l IH]; simpl.
  - apply Permutation_refl.
  - destruct (compare_desc x y <=? 0)%Z.
    + apply Permutation_refl.
    + apply perm_trans with (y :: x :: l).
      * apply perm_skip. exact IH.
      * apply perm_swap.
Qed.

Lemma qsort_desc_perm (l : list R) : Permutation (qsort_desc l) l.
Proof using Type.
  induction l as [| x l IH]; simpl.
  - apply perm_nil.
  - apply perm_trans with (x :: qsort_desc l).
    + apply insert_desc_perm.
    + apply perm_skip. exact IH.
Qed.

(** [compare_desc x y <= 0] says that [x] is not smaller than [y]. *)
Lemma compare_desc_le (x y : R) :
  (compare_desc x y <=? 0)%Z = true <-> y <= x.
Proof using Type.
  unfold compare_desc, C.gtb, C.ltb.
  destruct (Rlt_dec 0 (y - x)); destruct (Rlt_dec (y - x) 0); simpl;
    split; intros H; try discriminate; try reflexivity; lra.
Qed.

Lemma insert_desc_descending (x : R) (l : list R) :
  descending l -> descending (insert_desc x l).
Proof using Type.
  intros H. induction H as [| y | y z l Hzy Hl IH].
  - apply descending_one.
  - simpl. destruct (compare_desc x y <=? 0)%Z eqn:E.
    + apply compare_desc_le in E.
      apply descending_cons; [assumption | apply descending_one].
    + assert (x < y).
      { destruct (Rle_dec y x) as [Hle | Hgt]; [| lra].
        apply compare_desc_le in Hle. congruence. }
      apply descending_cons; [lra | apply descending_one].
  - change (insert_desc x (y :: z :: l))
      with (if (compare_desc x y <=? 0)%Z then x :: y :: z :: l
            else y :: insert_desc x (z :: l)).
    destruct (compare_desc x y <=? 0)%Z eqn:E.
    + apply compare_desc_le in E.
      apply descending_cons; [assumption |].
      apply descending_cons; assumption.
    + assert (x < y).
      { destruct (Rle_dec y x) as [Hle | Hgt]; [| lra].
        apply compare_desc_le in Hle. congruence. }
      simpl in IH |- *. destruct (compare_desc x z <=? 0)%Z.
      * apply descending_cons; [lra | exact IH].
      * apply descending_cons; [assumption | exact IH].
Qed.

Lemma qsort_desc_descending (l : list R) : descending (qsort_desc l).
Proof using Type.
  induction l as [| x l IH]; simpl.
  - constructor.
  - apply insert_desc_descending. exact IH.
Qed.

Lemma descending_tail (x : R) (l : list R) :
  descending (x :: l) -> descending l.
Proof using Type.
  intros H. inversion H; subst; [apply descending_nil | assumption].
Qed.

Lemma descending_head (x : R) (l : list R) :
  descending (x :: l) -> forall y, In y l -> y <= x.
Proof using Type.
  revert x. induction l as [| z l IH]; intros x H y Hy; [contradiction |].
  inversion H as [| | x' z' l' Hzx Hrest]; subst.
  destruct Hy as [-> | Hy]; [assumption |].
  apply Rle_trans with z; [| assumption].
  apply IH; assumption.
Qed.

(** A descending array is determined by its elements: whatever method
    [qsort] uses, it leaves the array [qsort_desc] computes. *)
Lemma descending_unique (l1 l2 : list R) :
  descending l1 -> descending l2 -> Permutation l1 l2 -> l1 = l2.
Proof using Type.
  revert l2. induction l1 as [| x l1 IH]; intros l2 H1 H2 Hp.
  - apply Permutation_nil in Hp. congruence.
  - destruct l2 as [| y l2];
      [apply Permutation_sym, Permutation_nil in Hp; discriminate |].
    assert (Hxy : x = y).
    { assert (Hx : In x (y :: l2))
        by (apply (Permutation_in _ Hp); left; reflexivity).
      assert (Hy : In y (x :: l1))
        by (apply (Permutation_in _ (Permutation_sym Hp)); left;
            reflexivity).
      destruct Hx as [Hx | Hx]; [congruence |].
      destruct Hy as [Hy | Hy]; [congruence |].
      apply Rle_antisym.
      - apply (descending_head y l2); assumption.
      - apply (descending_head x l1); assumption. }
    subst y. f_equal. apply IH.
    + apply (descending_tail x). assumption.
    + apply (descending_tail x). assumption.
    + apply (Permutation_cons_inv Hp).
Qed.

Lemma first_fit_ok (w : R) (rects : list large_rect) :
  Forall (rect_ok C) rects ->
  forall rects', first_fit w rects = Some rects' ->
    Forall (rect_ok C) rects'.
Proof using Type.
  intros H. induction H as [| b rects Hb Hrects IH]; intros rects' Hfit;
    simpl in Hfit; [discriminate |].
  destruct (C.geb (remaining_space b) w) eqn:E.
  - injection Hfit as <-. apply geb_true in E.
    constructor; [| assumption].
    destruct Hb as [Hsum Hpos]. unfold rect_ok. simpl.
    rewrite sum_widths_app. simpl. lra.
  - destruct (first_fit w rects) as [rest' |]; [| discriminate].
    injection Hfit as <-. constructor; [assumption |].
    apply IH. reflexivity.
Qed.

Lemma place_ok (w : R) (rects : list large_rect) :
  w <= IZR C -> Forall (rect_ok C) rects -> Forall (rect_ok C) (place C rects w).
Proof using Type.
  intros Hw H. unfold place.
  destruct (first_fit w rects) as [rects' |] eqn:E.
  - apply (first_fit_ok w rects H). assumption.
  - apply Forall_app. split; [assumption |].
    constructor; [| constructor].
    unfold rect_ok. simpl. lra.
Qed.

Lemma pack_loop_ok (ws : list R) :
  Forall (fun w => w <= IZR C) ws ->
  forall rects, Forall (rect_ok C) rects ->
    Forall (rect_ok C) (pack_loop C ws rects).
Proof using Type.
  intros H. induction H as [| w ws Hw Hws IH]; intros rects Hrects; simpl.
  - assumption.
  - apply IH. apply place_ok; assumption.
Qed.

Lemma first_fit_placed (w : R) (rects : list large_rect) :
  forall rects', first_fit w rects = Some rects' ->
    Permutation (placed rects') (w :: placed rects).
Proof using Type.
  unfold placed.
  induction rects as [| b rects IH]; intros rects' Hfit; simpl in Hfit;
    [discriminate |].
  destruct (C.geb (remaining_space b) w).
  - injection Hfit as <-. simpl. rewrite <- app_assoc. simpl.
    apply Permutation_sym. apply Permutation_middle.
  - destruct (first_fit w rects) as [rest' |]; [| discriminate].
    injection Hfit as <-. simpl.
    apply perm_trans with (packed b ++ w :: concat (map packed rects)).
    + apply Permutation_app_head. apply IH. reflexivity.
    + apply Permutation_sym. apply Permutation_middle.
Qed.

Lemma place_placed (w : R) (rects : list large_rect) :
  Permutation (placed (place C rects w)) (w :: placed rects).
Proof using Type.
  unfold place. destruct (first_fit w rects) as [rects' |] eqn:E.
  - apply first_fit_placed. assumption.
  - unfold placed. rewrite map_app, concat_app. simpl.
    apply Permutation_sym. apply Permutation_cons_append.
Qed.

Lemma pack_loop_placed (ws : list R) :
  forall rects,
    Permutation (placed (pack_loop C ws rects)) (placed rects ++ ws).
Proof using Type.
  induction ws as [| w ws IH]; intros rects; simpl.
  - rewrite app_nil_r. apply Permutation_refl.
  - apply perm_trans with (placed (place C rects w) ++ ws); [apply IH |].
    apply perm_trans with ((w :: placed rects) ++ ws).
    + apply Permutation_app_tail. apply place_placed.
    + simpl. apply Permutation_middle.
Qed.

End Binner.


(** ** The binner on the strips 360, 360, 30, 72, 18 *)

Lemma compare_desc_ge (x y : R) :
  y <= x -> (compare_desc x y <=? 0)%Z = true.
Proof. apply compare_desc_le. Qed.

Lemma compare_desc_lt (x y : R) :
  x < y -> (compare_desc x y <=? 0)%Z = false.
Proof.
  intros H. destruct (compare_desc x y <=? 0)%Z eqn:E; [| reflexivity].
  apply compare_desc_le in E. lra.
Qed.

Lemma qsort_desc_scenario :
  qsort_desc [360; 360; 30; 72; 18] = [360; 360; 72; 30; 18].
Proof.
  cbn [qsort_desc insert_desc].
  rewrite (compare_desc_ge 72 18) by lra. cbn [insert_desc].
  rewrite (compare_desc_lt 30 72) by lra. cbn [insert_desc].
  rewrite (compare_desc_ge 30 18) by lra. cbn [insert_desc].
  rewrite (compare_desc_ge 360 72) by lra. cbn [insert_desc].
  rewrite (compare_desc_ge 360 360) by lra.
  reflexivity.
Qed.

Lemma packed_rects_scenario :
  packed_rects 360 [360; 360; 30; 72; 18]
  = [mk_rect (360 - 360) [360]; mk_rect (360 - 360) [360];
     mk_rect (360 - 72 - 30 - 18) [72; 30; 18]].
Proof.
  unfold packed_rects. rewrite qsort_desc_scenario.
  unfold pack_loop. cbn [fold_left].
  unfold place at 5. cbn [first_fit app].
  unfold place at 4.
  cbn [first_fit app remaining_space packed]. unfold C.geb.
  settle_comparisons.
  unfold place at 3.
  cbn [first_fit app remaining_space packed]. unfold C.geb.
  settle_comparisons.
  unfold place at 2.
  cbn [first_fit app remaining_space packed]. unfold C.geb.
  settle_comparisons.
  unfold place.
  cbn [first_fit app remaining_space packed]. unfold C.geb.
  settle_comparisons.
  reflexivity.
Qed.

(** C7.  The strips 360, 360, 30, 72, 18 with capacity 360 are sorted to
    360, 360, 72, 30, 18 and placed in three rectangles holding [360],
    [360] and [72, 30, 18] in placement order, with 0, 0 and 240 left;
    the waste is 240, that is 240 / (3 * 360) * 100 per cent, between
    22.22 and 22.23. *)
Theorem binner_scenario :
  let strips := [360; 360; 30; 72; 18] in
  let report := pack_rectangles LARGE_RECT_WIDTH strips in
  qsort_desc strips = [360; 360; 72; 30; 18]
  /\ details report = [[360]; [360]; [72; 30; 18]]
  /\ map remaining_space (packed_rects LARGE_RECT_WIDTH strips) = [0; 0; 240]
  /\ large_rect_count report = 3%Z
  /\ wasted report = 240
  /\ wasted_percent report = 240 / (3 * 360) * 100
  /\ 2222 / 100 < wasted_percent report < 2223 / 100.
Proof.
  intros strips report.
  assert (Hw : wasted report = 240).
  { unfold report, pack_rectangles, strips, LARGE_RECT_WIDTH.
    rewrite packed_rects_scenario. unfold report_of, total_waste.
    cbn [wasted fold_left remaining_space]. lra. }
  assert (Hp : wasted_percent report = 240 / (3 * 360) * 100).
  { unfold report, pack_rectangles, strips, LARGE_RECT_WIDTH.
    rewrite packed_rects_scenario. unfold report_of, total_waste.
    cbn [wasted_percent fold_left remaining_space length].
    change (Z.of_nat 3 * 360)%Z with 1080%Z. lra. }
  split; [exact qsort_desc_scenario |].
  split.
  { unfold report, pack_rectangles, strips, LARGE_RECT_WIDTH.
    rewrite packed_rects_scenario. reflexivity. }
  split.
  { unfold strips, LARGE_RECT_WIDTH. rewrite packed_rects_scenario.
    cbn [map remaining_space]. repeat f_equal; lra. }
  split.
  { unfold report, pack_rectangles, strips, LARGE_RECT_WIDTH.
    rewrite packed_rects_scenario. reflexivity. }
  split; [assumption |].
  split; [assumption |].
  rewrite Hp. lra.
Qed.


(** ** Further properties of [compare_desc] *)

(** X1.  [compare_desc] returns 1, 0 or -1: 1 exactly when its first
    argument is the smaller, -1 exactly when it is the larger and 0
    exactly when the two are equal; swapping the arguments negates the
    result. *)
Theorem compare_desc_sign (a b : R) :
  (compare_desc a b = 1%Z <-> a < b)
  /\ (compare_desc a b = (-1)%Z <-> b < a)
  /\ (compare_desc a b = 0%Z <-> a = b)
  /\ compare_desc b a = (- compare_desc a b)%Z.
Proof.
  unfold compare_desc, C.gtb, C.ltb.
  destruct (Rlt_dec 0 (b - a)); destruct (Rlt_dec (b - a) 0);
    destruct (Rlt_dec 0 (a - b)); destruct (Rlt_dec (a - b) 0);
    try (exfalso; lra);
    (split; [| split; [| split]]);
    try reflexivity;
    try (split; intros H; try discriminate; try reflexivity; lra).
Qed.

(** ** Further properties of [compute_min_width] *)

Lemma flat_capacity_at_0 (r : R) (rows : Z) :
  0 < r -> flat_capacity r rows (IZR 0 * (2 * r)) = 0%Z.
Proof.
  intros Hr. destruct (Z.le_gt_cases 0 rows) as [Hrows | Hrows].
  - rewrite flat_capacity_closed by (try assumption; lia).
    change (Z.max (0 - 1) 0) with 0%Z. lia.
  - apply flat_capacity_no_rows. lia.
Qed.

Lemma flat_capacity_upper (r : R) (rows k : Z) :
  0 < r -> (0 <= rows)%Z -> (0 <= k)%Z ->
  (flat_capacity r rows (IZR k * (2 * r)) <= k * rows)%Z.
Proof.
  intros Hr Hrows Hk. rewrite flat_capacity_closed by assumption.
  assert (Hsum : ((rows + 1) / 2 + rows / 2 = rows)%Z)
    by (Z.to_euclidean_division_equations; lia).
  assert (0 <= rows / 2)%Z by (Z.to_euclidean_division_equations; lia).
  assert (Z.max (k - 1) 0 <= k)%Z by lia.
  nia.
Qed.

(** The flat-topped loop is left at the first number of widenings whose
    capacity reaches [n]. *)
Lemma flat_loop_exit (r : R) (rows n : Z) :
  0 < r -> (1 <= rows)%Z ->
  forall fuel k,
    (0 <= k)%Z ->
    (forall k', (0 <= k' < k)%Z ->
       (flat_capacity r rows (IZR k' * (2 * r)) < n)%Z) ->
    (n - k <= Z.of_nat fuel)%Z ->
    exists j, (k <= j)%Z /\ flat_first_reaching r rows n j /\
      flat_loop fuel r rows n (flat_capacity r rows (IZR k * (2 * r)))
        (IZR k * (2 * r))
      = Some (IZR j * (2 * r)).
Proof.
  intros Hr Hrows fuel. induction fuel as [| fuel IH]; intros k Hk Hbelow Hf.
  - exists k. pose proof (flat_capacity_lower r Hr rows k Hrows Hk).
    simpl.
    destruct (Z.ltb_spec (flat_capacity r rows (IZR k * (2 * r))) n);
      [lia |].
    repeat split; try assumption; lia.
  - simpl.
    destruct (Z.ltb_spec (flat_capacity r rows (IZR k * (2 * r))) n)
      as [Hlt | Hge].
    + rewrite flat_width_step.
      destruct (IH (k + 1)%Z) as [j [Hj [Hfirst Hrun]]]; try lia.
      * intros k' Hk'. destruct (Z.eq_dec k' k) as [-> | Hne];
          [assumption | apply Hbelow; lia].
      * exists j. repeat split; try apply Hfirst; try lia. exact Hrun.
    + exists k. repeat split; try assumption; lia.
Qed.

Lemma width_flat_exit (r : R) (height n : Z) (fuel : nat) :
  0 < r -> (1 <= rows_flat r height)%Z -> (1 <= n)%Z ->
  (n <= Z.of_nat fuel)%Z ->
  exists j, (1 <= j)%Z /\
    flat_first_reaching r (rows_flat r height) n j /\
    width_flat fuel r height n = Some (IZR j * (2 * r)).
Proof.
  intros Hr Hrows Hn Hf.
  destruct (flat_loop_exit r (rows_flat r height) n Hr Hrows fuel 0%Z)
    as [j [_ [Hfirst Hrun]]]; try lia.
  rewrite flat_capacity_at_0 in Hrun by assumption.
  replace (IZR 0 * (2 * r)) with 0 in Hrun by ring.
  exists j. split; [| split; assumption].
  destruct Hfirst as [Hj [Hreach _]].
  destruct (Z.eq_dec j 0) as [-> | Hne]; [| lia].
  rewrite flat_capacity_at_0 in Hreach by assumption. lia.
Qed.

Lemma rows_regular_rows_flat (r : R) (height : Z) :
  (1 <= rows_flat r height)%Z -> rows_regular r height = rows_flat r height.
Proof.
  intros H. unfold rows_regular. fold (rows_flat r height).
  destruct (Z.ltb_spec (rows_flat r height) 1); [lia | reflexivity].
Qed.

(** The regular column count is the ceiling of [n / rows]. *)
Lemma columns_regular_ceiling (r : R) (height n : Z) :
  (1 <= n)%Z ->
  let rows := rows_regular r height in
  let columns := columns_regular r height n in
  (rows * (columns - 1) < n <= rows * columns)%Z.
Proof.
  intros Hn rows columns. unfold columns, columns_regular. fold rows.
  pose proof (rows_regular_ge_1 r height) as Hrows. fold rows in Hrows.
  rewrite Z.quot_div_nonneg by lia.
  Z.to_euclidean_division_equations. nia.
Qed.

(** What a call computes when a flat-topped row fits. *)
Lemma compute_min_width_shape (r : R) (height n : Z) (fuel : nat) :
  0 < r -> (1 <= rows_flat r height)%Z -> (1 <= n)%Z ->
  (Z.to_nat (2 * n) <= fuel)%nat ->
  exists j c,
    (1 <= j)%Z /\ (1 <= c)%Z /\
    flat_first_reaching r (rows_flat r height) n j /\
    first_reaching (rows_pointy r height) n c /\
    width_flat fuel r height n = Some (IZR j * (2 * r)) /\
    width_pointy fuel r height n = Some (2 * r + IZR (c - 1) * r * sqrt 3) /\
    compute_min_width fuel r height n
    = Some (mk_result
              (choose_width (IZR j * (2 * r))
                 (2 * r + IZR (c - 1) * r * sqrt 3)
                 (width_regular r height n))
              (packing_of
                 (smallest_width (IZR j * (2 * r))
                    (2 * r + IZR (c - 1) * r * sqrt 3)
                    (width_regular r height n)))).
Proof.
  intros Hr Hrows Hn Hfuel.
  destruct (width_flat_exit r height n fuel Hr Hrows Hn)
    as [j [Hj [Hjfirst Hwf]]]; [lia |].
  destruct (columns_pointy_returns r height n fuel) as [c [Hcfirst Hcols]];
    [apply rows_flat_rows_pointy; assumption | lia |].
  assert (Hc : (1 <= c)%Z).
  { destruct Hcfirst as [Hc0 [Hreach _]].
    destruct (Z.eq_dec c 0) as [-> | Hne]; [| lia].
    rewrite pointy_capacity_0 in Hreach. lia. }
  assert (Hwp : width_pointy fuel r height n
                = Some (2 * r + IZR (c - 1) * r * sqrt 3)).
  { unfold width_pointy. rewrite Hcols. unfold pointy_formula.
    destruct (Z.eqb_spec (c + 1) 1); [lia |].
    replace (c + 1 - 2)%Z with (c - 1)%Z by lia. reflexivity. }
  exists j, c. repeat (split; [assumption |]).
  unfold compute_min_width. rewrite Hwf, Hwp. reflexivity.
Qed.

(** With the row count shared, the flat-topped strategy never needs less
    width than the regular grid. *)
Lemma width_regular_le_flat (r : R) (height n j : Z) :
  0 < r -> (1 <= rows_flat r height)%Z -> (1 <= n)%Z ->
  flat_first_reaching r (rows_flat r height) n j ->
  width_regular r height n <= IZR j * (2 * r).
Proof.
  intros Hr Hrows Hn [Hj [Hreach _]].
  pose proof (flat_capacity_upper r (rows_flat r height) j Hr) as Hup.
  pose proof (columns_regular_ceiling r height n Hn) as Hceil.
  cbv zeta in Hceil. rewrite rows_regular_rows_flat in Hceil by assumption.
  assert (Hcols : (columns_regular r height n <= j)%Z) by nia.
  unfold width_regular. apply IZR_le in Hcols. nra.
Qed.

Lemma columns_regular_ge_1 (r : R) (height n : Z) :
  (1 <= n)%Z -> (1 <= columns_regular r height n)%Z.
Proof.
  intros Hn. pose proof (columns_regular_ceiling r height n Hn) as Hceil.
  pose proof (rows_regular_ge_1 r height). cbv zeta in Hceil. nia.
Qed.

Lemma width_flat_more_fuel (r : R) (height n : Z) (fuel fuel' : nat)
    (w : R) :
  width_flat fuel r height n = Some w -> (fuel <= fuel')%nat ->
  width_flat fuel' r height n = Some w.
Proof. unfold width_flat. apply flat_loop_more_fuel. Qed.

(** A call that returns had a flat-topped row, and its result is the one
    described by [compute_min_width_shape]. *)
Lemma compute_min_width_returned (r : R) (height n : Z) (fuel : nat)
    (res : solver_result) :
  0 < r -> (1 <= n)%Z ->
  compute_min_width fuel r height n = Some res ->
  exists j c,
    (1 <= j)%Z /\ (1 <= c)%Z /\
    flat_first_reaching r (rows_flat r height) n j /\
    first_reaching (rows_pointy r height) n c /\
    width_flat fuel r height n = Some (IZR j * (2 * r)) /\
    width_pointy fuel r height n = Some (2 * r + IZR (c - 1) * r * sqrt 3) /\
    res = mk_result
            (choose_width (IZR j * (2 * r))
               (2 * r + IZR (c - 1) * r * sqrt 3)
               (width_regular r height n))
            (packing_of
               (smallest_width (IZR j * (2 * r))
                  (2 * r + IZR (c - 1) * r * sqrt 3)
                  (width_regular r height n))).
Proof.
  intros Hr Hn Hrun.
  assert (Hrows : (1 <= rows_flat r height)%Z).
  { destruct (Z.le_gt_cases 1 (rows_flat r height)) as [H | H];
      [assumption |].
    rewrite compute_min_width_diverges in Hrun by lia. discriminate. }
  unfold compute_min_width in Hrun.
  destruct (width_flat fuel r height n) as [wf |] eqn:Ef; [| discriminate].
  destruct (width_pointy fuel r height n) as [wp |] eqn:Ep; [| discriminate].
  set (F := Nat.max fuel (Z.to_nat (2 * n))).
  destruct (compute_min_width_shape r height n F Hr Hrows Hn)
    as [j [c [Hj [Hc [Hjf [Hcf [Hwf [Hwp _]]]]]]]]; [unfold F; lia |].
  rewrite (width_flat_more_fuel _ _ _ fuel F _ Ef) in Hwf by (unfold F; lia).
  rewrite (width_pointy_more_fuel _ _ _ fuel F _ Ep) in Hwp
    by (unfold F; lia).
  injection Hwf as ->. injection Hwp as ->.
  exists j, c. repeat (split; [assumption |]).
  split; [reflexivity |]. split; [reflexivity |]. congruence.
Qed.











(** X7.  The pointy-topped capacity of [c >= 0] columns is
    [rows * ceil(c / 2) + max(rows - 1, 0) * floor(c / 2)]; with no row
    it is never positive, whatever the column count. *)
Theorem pointy_capacity_formula (rows c : Z) :
  ((0 <= c)%Z ->
   pointy_capacity rows c
   = (rows * ((c + 1) / 2) + Z.max (rows - 1) 0 * (c / 2))%Z)
  /\ ((rows <= 0)%Z -> (pointy_capacity rows c <= 0)%Z).
Proof.
  split.
  - apply pointy_capacity_closed.
  - apply pointy_capacity_no_rows.
Qed.

Lemma pointy_capacity_formula_witness :
  pointy_capacity 3 7 = (3 * ((7 + 1) / 2) + Z.max (3 - 1) 0 * (7 / 2))%Z
  /\ (pointy_capacity 0 7 <= 0)%Z.
Proof.
  split.
  - apply (proj1 (pointy_capacity_formula 3 7)). lia.
  - apply (proj2 (pointy_capacity_formula 0 7)). lia.
Defined.

(** ** Further properties of [pack_rectangles] *)

Lemma sum_widths_perm (l1 l2 : list R) :
  Permutation l1 l2 -> sum_widths l1 = sum_widths l2.
Proof.
  intros H. induction H as [| x l1 l2 H IH | x y l | l1 l2 l3 H1 IH1 H2 IH2];
    simpl.
  - reflexivity.
  - rewrite IH. reflexivity.
  - lra.
  - congruence.
Qed.

Lemma qsort_desc_perm_eq (l1 l2 : list R) :
  Permutation l1 l2 -> qsort_desc l1 = qsort_desc l2.
Proof.
  intros H. apply descending_unique.
  - apply qsort_desc_descending.
  - apply qsort_desc_descending.
  - apply perm_trans with l1; [apply qsort_desc_perm |].
    apply perm_trans with l2; [assumption |].
    apply Permutation_sym, qsort_desc_perm.
Qed.

Section BinnerMore.

Variable C : Z.

(** What is left in a rectangle is the capacity less its strips, whether
    or not the strips fit the capacity. *)
Lemma first_fit_sum (w : R) (rects : list large_rect) :
  Forall (fun b => remaining_space b = IZR C - sum_widths (packed b)) rects ->
  forall rects', first_fit w rects = Some rects' ->
    Forall (fun b => remaining_space b = IZR C - sum_widths (packed b))
      rects'.
Proof using Type.
  intros H. induction H as [| b rects Hb Hrects IH]; intros rects' Hfit;
    simpl in Hfit; [discriminate |].
  destruct (C.geb (remaining_space b) w).
  - injection Hfit as <-. constructor; [| assumption].
    simpl. rewrite sum_widths_app. simpl. lra.
  - destruct (first_fit w rects) as [rest' |]; [| discriminate].
    injection Hfit as <-. constructor; [assumption |].
    apply IH. reflexivity.
Qed.

Lemma pack_loop_sum (ws : list R) :
  forall rects,
    Forall (fun b => remaining_space b = IZR C - sum_widths (packed b))
      rects ->
    Forall (fun b => remaining_space b = IZR C - sum_widths (packed b))
      (pack_loop C ws rects).
Proof using Type.
  induction ws as [| w ws IH]; intros rects H; simpl; [assumption |].
  apply IH. unfold place.
  destruct (first_fit w rects) as [rects' |] eqn:E.
  - apply (first_fit_sum w rects H). assumption.
  - apply Forall_app. split; [assumption |].
    constructor; [| constructor]. simpl. lra.
Qed.

(** No rectangle is opened without a strip. *)
Lemma first_fit_nonempty (w : R) (rects : list large_rect) :
  Forall (fun b => packed b <> []) rects ->
  forall rects', first_fit w rects = Some rects' ->
    Forall (fun b => packed b <> []) rects'.
Proof using Type.
  intros H. induction H as [| b rects Hb Hrects IH]; intros rects' Hfit;
    simpl in Hfit; [discriminate |].
  destruct (C.geb (remaining_space b) w).
  - injection Hfit as <-. constructor; [| assumption].
    simpl. intros E. apply app_eq_nil in E. destruct E; discriminate.
  - destruct (first_fit w rects) as [rest' |]; [| discriminate].
    injection Hfit as <-. constructor; [assumption |].
    apply IH. reflexivity.
Qed.

Lemma pack_loop_nonempty (ws : list R) :
  forall rects,
    Forall (fun b => packed b <> []) rects ->
    Forall (fun b => packed b <> []) (pack_loop C ws rects).
Proof using Type.
  induction ws as [| w ws IH]; intros rects H; simpl; [assumption |].
  apply IH. unfold place.
  destruct (first_fit w rects) as [rects' |] eqn:E.
  - apply (first_fit_nonempty w rects H). assumption.
  - apply Forall_app. split; [assumption |].
    constructor; [| constructor]. simpl. discriminate.
Qed.

Lemma nonempty_count (rects : list large_rect) :
  Forall (fun b => packed b <> []) rects ->
  (length rects <= length (placed rects))%nat.
Proof using Type.
  unfold placed. intros H. induction H as [| b rects Hb Hrects IH]; simpl.
  - lia.
  - rewrite length_app. destruct (packed b); [contradiction | simpl; lia].
Qed.

Lemma packed_count (rects : list large_rect) (b : large_rect) :
  In b rects -> (length (packed b) <= length (placed rects))%nat.
Proof using Type.
  unfold placed. induction rects as [| b' rects IH]; intros Hin;
    [contradiction |].
  simpl. rewrite length_app. destruct Hin as [-> | Hin]; [lia |].
  specialize (IH Hin). lia.
Qed.

Lemma total_waste_from (rects : list large_rect) :
  forall acc,
    fold_left (fun waste b => waste + remaining_space b) rects acc
    = acc + sum_widths (map remaining_space rects).
Proof using Type.
  induction rects as [| b rects IH]; intros acc; simpl.
  - lra.
  - rewrite IH. lra.
Qed.

Lemma total_waste_sum (rects : list large_rect) :
  Forall (fun b => remaining_space b = IZR C - sum_widths (packed b)) rects ->
  total_waste rects
  = IZR (Z.of_nat (length rects)) * IZR C - sum_widths (placed rects).
Proof using Type.
  unfold total_waste, placed. rewrite total_waste_from.
  intros H. induction H as [| b rects Hb Hrects IH].
  - simpl. lra.
  - cbn [map sum_widths fold_right concat length].
    fold (sum_widths (map remaining_space rects)).
    fold (sum_widths (packed b ++ concat (map packed rects))).
    rewrite sum_widths_app, Nat2Z.inj_succ, succ_IZR, Hb. lra.
Qed.

(** The first-fit scan keeps every strip out of reach of the rectangles
    opened before its own. *)
Lemma first_fit_no_earlier_fit (w : R) (rects : list large_rect) :
  0 <= w -> no_earlier_fit rects ->
  forall rects', first_fit w rects = Some rects' ->
    no_earlier_fit rects'
    /\ (forall b' s, In b' rects' -> In s (packed b') ->
          (exists b, In b rects /\ In s (packed b)) \/ s = w).
Proof using Type.
  intros Hw. induction rects as [| b rects IH]; intros Hinv rects' Hfit;
    simpl in Hfit; [discriminate |].
  destruct Hinv as [Hb Hrest].
  destruct (C.geb (remaining_space b) w) eqn:E.
  - injection Hfit as <-. split.
    + split; [| assumption]. simpl. intros b' s Hb' Hs.
      specialize (Hb b' s Hb' Hs). lra.
    + intros b' s [<- | Hb'] Hs.
      * simpl in Hs. apply in_app_or in Hs. destruct Hs as [Hs | [<- | []]].
        -- left. exists b. split; [left; reflexivity | assumption].
        -- right. reflexivity.
      * left. exists b'. split; [right; assumption | assumption].
  - destruct (first_fit w rects) as [rest' |] eqn:Erest; [| discriminate].
    injection Hfit as <-. apply geb_false in E.
    destruct (IH Hrest rest' eq_refl) as [Hinv' Horigin].
    split.
    + split; [| assumption]. intros b' s Hb' Hs.
      destruct (Horigin b' s Hb' Hs) as [[b0 [Hb0 Hs0]] | ->].
      * apply (Hb b0 s Hb0 Hs0).
      * assumption.
    + intros b' s [<- | Hb'] Hs.
      * left. exists b. split; [left; reflexivity | assumption].
      * destruct (Horigin b' s Hb' Hs) as [[b0 [Hb0 Hs0]] | ->].
        -- left. exists b0. split; [right; assumption | assumption].
        -- right. reflexivity.
Qed.

Lemma first_fit_none (w : R) (rects : list large_rect) :
  first_fit w rects = None ->
  Forall (fun b => remaining_space b < w) rects.
Proof using Type.
  induction rects as [| b rects IH]; intros Hfit; [constructor |].
  simpl in Hfit. destruct (C.geb (remaining_space b) w) eqn:E;
    [discriminate |].
  destruct (first_fit w rects); [discriminate |].
  apply geb_false in E. constructor; [assumption | apply IH; reflexivity].
Qed.

Lemma no_earlier_fit_app (rects : list large_rect) (w : R) (b : large_rect) :
  no_earlier_fit rects ->
  Forall (fun b' => remaining_space b' < w) rects ->
  packed b = [w] ->
  no_earlier_fit (rects ++ [b]).
Proof using Type.
  intros Hinv Hall Hb. induction Hall as [| b0 rects Hb0 Hall IH]; simpl.
  - split; [intros b' s [] | exact I].
  - destruct Hinv as [Hhead Hrest]. split; [| apply IH; assumption].
    intros b' s Hb' Hs. apply in_app_or in Hb'.
    destruct Hb' as [Hb' | [<- | []]].
    + apply (Hhead b' s Hb' Hs).
    + rewrite Hb in Hs. destruct Hs as [<- | []]. assumption.
Qed.

Lemma pack_loop_no_earlier_fit (ws : list R) :
  Forall (fun w => 0 <= w) ws ->
  forall rects, no_earlier_fit rects ->
    no_earlier_fit (pack_loop C ws rects).
Proof using Type.
  intros H. induction H as [| w ws Hw Hws IH]; intros rects Hinv; simpl;
    [assumption |].
  apply IH. unfold place.
  destruct (first_fit w rects) as [rects' |] eqn:E.
  - apply (first_fit_no_earlier_fit w rects Hw Hinv rects' E).
  - apply (no_earlier_fit_app rects w); [assumption | | reflexivity].
    apply first_fit_none. assumption.
Qed.

Lemma no_earlier_fit_split (l1 l2 : list large_rect) (b1 b2 : large_rect)
    (s : R) :
  no_earlier_fit (l1 ++ b1 :: l2) -> In b2 l2 -> In s (packed b2) ->
  remaining_space b1 < s.
Proof using Type.
  induction l1 as [| b l1 IH]; simpl; intros [Hhead Hrest] Hb2 Hs.
  - apply (Hhead b2 s Hb2 Hs).
  - apply IH; assumption.
Qed.

Lemma sum_widths_In (l : list R) (s : R) :
  Forall (fun w => 0 <= w) l -> In s l -> s <= sum_widths l.
Proof using Type.
  intros H. induction H as [| x l Hx Hl IH]; intros Hin; [contradiction |].
  assert (0 <= sum_widths l).
  { clear IH Hin. induction Hl as [| y l Hy Hl IH]; simpl; lra. }
  simpl. destruct Hin as [-> | Hin]; [lra |].
  specialize (IH Hin). lra.
Qed.

End BinnerMore.

(** X8.  The report of [pack_rectangles] does not depend on the order in
    which the strips are handed over: two arrays holding the same strips
    give the same rectangles, waste and details. *)
Theorem pack_rectangles_order_independent (C : Z) (l1 l2 : list R) :
  Permutation l1 l2 -> pack_rectangles C l1 = pack_rectangles C l2.
Proof.
  intros H. unfold pack_rectangles, packed_rects.
  rewrite (qsort_desc_perm_eq l1 l2 H). reflexivity.
Qed.

Lemma pack_rectangles_order_independent_witness :
  pack_rectangles 360 [30; 360; 72] = pack_rectangles 360 [360; 72; 30].
Proof.
  apply (pack_rectangles_order_independent 360).
  apply perm_trans with [360; 30; 72].
  - apply perm_swap.
  - apply perm_skip. apply perm_swap.
Defined.

(** X9.  [pack_rectangles] never opens more rectangles than there are
    strips, never opens an empty one, never puts more strips in one
    rectangle than there are strips, and places as many strips as it was
    given: the indices into [remaining_space], [packed_counts] and
    [packed_rects] stay below [num_rectangles]. *)
Theorem pack_rectangles_within_arrays (C : Z) (small_widths : list R) :
  let rects := packed_rects C small_widths in
  (length rects <= length small_widths)%nat
  /\ Forall (fun b => packed b <> []
                      /\ (length (packed b) <= length small_widths)%nat)
       rects
  /\ length (concat (map packed rects)) = length small_widths.
Proof.
  intros rects.
  assert (Hperm : Permutation (placed rects) small_widths).
  { unfold rects, packed_rects.
    apply perm_trans with (qsort_desc small_widths).
    - apply (pack_loop_placed C (qsort_desc small_widths) []).
    - apply qsort_desc_perm. }
  assert (Hlen : length (placed rects) = length small_widths)
    by (apply Permutation_length; assumption).
  assert (Hne : Forall (fun b => packed b <> []) rects).
  { unfold rects, packed_rects. apply pack_loop_nonempty. constructor. }
  split; [| split].
  - rewrite <- Hlen. apply nonempty_count. assumption.
  - apply Forall_forall. intros b Hb. split.
    + revert b Hb. apply Forall_forall. assumption.
    + rewrite <- Hlen. apply packed_count. assumption.
  - exact Hlen.
Qed.



Lemma remaining_sum_nonneg (C : Z) (rects : list large_rect) :
  Forall (rect_ok C) rects -> 0 <= sum_widths (map remaining_space rects).
Proof.
  intros H. induction H as [| b rects [_ Hb] Hrects IH]; simpl; lra.
Qed.



(** ** Further properties of [adjust_best_widths] *)

Lemma split_width_le (C : Z) (w : R) :
  (0 < C)%Z -> Forall (fun s => s <= IZR C) (split_width C w).
Proof.
  intros HC. assert (0 < IZR C) by (apply IZR_lt; assumption).
  destruct (Rle_dec w (IZR C)) as [Hle | Hgt].
  - rewrite split_width_fits by assumption. constructor; [lra | constructor].
  - destruct (split_width_exceeds C HC w) as [Hparts [Hrem ->]]; [lra |].
    apply Forall_app. split.
    + apply Forall_forall. intros s Hs. apply repeat_spec in Hs. lra.
    + destruct (Rlt_dec 0 _); [constructor; [lra | constructor] |
                                constructor].
Qed.

Lemma split_width_count (C : Z) (w : R) :
  (0 < C)%Z ->
  (1 <= length (split_width C w))%nat
  /\ (w <= 2 * IZR C -> (length (split_width C w) <= 2)%nat)
  /\ (2 * IZR C < w -> (3 <= length (split_width C w))%nat).
Proof.
  intros HC. assert (HCr : 0 < IZR C) by (apply IZR_lt; assumption).
  destruct (Rle_dec w (IZR C)) as [Hle | Hgt].
  - rewrite split_width_fits by assumption. simpl.
    split; [lia |]. split; [lia | lra].
  - destruct (split_width_exceeds C HC w) as [Hparts [Hrem ->]]; [lra |].
    rewrite length_app, repeat_length.
    set (parts := Zfloor (w / IZR C)) in *.
    set (remainder := w - IZR parts * IZR C) in *.
    split; [lia |]. split.
    + intros H2.
      assert (Hp : (parts <= 2)%Z).
      { apply Z.lt_succ_r. apply lt_IZR.
        unfold Z.succ. rewrite plus_IZR. unfold remainder in Hrem. nra. }
      destruct (Rlt_dec 0 remainder) as [Hpos | Hzero]; simpl; [| lia].
      assert (parts <> 2)%Z; [| lia].
      intros E. unfold remainder in Hpos. rewrite E in Hpos. lra.
    + intros H2.
      assert (Hp : (2 <= parts)%Z).
      { apply Z.lt_succ_r. apply lt_IZR. unfold Z.succ.
        rewrite plus_IZR. unfold remainder in Hrem. nra. }
      destruct (Rlt_dec 0 remainder) as [Hpos | Hzero]; simpl; [lia |].
      assert (parts <> 2)%Z; [| lia].
      intros E. unfold remainder in Hzero, Hrem. rewrite E in Hzero, Hrem.
      lra.
Qed.

Lemma adjust_best_widths_cons (C : Z) (w : R) (ws : list R) :
  adjust_best_widths C (w :: ws)
  = split_width C w ++ adjust_best_widths C ws.
Proof.
  unfold adjust_best_widths. rewrite !adjust_loop_concat. reflexivity.
Qed.

Lemma adjust_best_widths_fitting (C : Z) (ws : list R) :
  Forall (fun w => w <= IZR C) ws -> adjust_best_widths C ws = ws.
Proof.
  intros H. induction H as [| w ws Hw Hws IH]; [reflexivity |].
  rewrite adjust_best_widths_cons, IH, split_width_fits by assumption.
  reflexivity.
Qed.

Lemma adjust_best_widths_le (C : Z) (ws : list R) :
  (0 < C)%Z -> Forall (fun s => s <= IZR C) (adjust_best_widths C ws).
Proof.
  intros HC. induction ws as [| w ws IH]; [constructor |].
  rewrite adjust_best_widths_cons. apply Forall_app.
  split; [apply split_width_le; assumption | assumption].
Qed.

Lemma adjust_best_widths_sum (C : Z) (ws : list R) :
  (0 < C)%Z -> sum_widths (adjust_best_widths C ws) = sum_widths ws.
Proof.
  intros HC. induction ws as [| w ws IH]; [reflexivity |].
  rewrite adjust_best_widths_cons, sum_widths_app, IH, split_width_sum
    by assumption.
  reflexivity.
Qed.

Lemma adjust_best_widths_pos (C : Z) (ws : list R) :
  (0 < C)%Z -> Forall (fun w => 0 < w) ws ->
  Forall (fun s => 0 < s <= IZR C) (adjust_best_widths C ws).
Proof.
  intros HC H. induction H as [| w ws Hw Hws IH]; [constructor |].
  rewrite adjust_best_widths_cons. apply Forall_app.
  split; [apply split_width_bounds; assumption | assumption].
Qed.



(** X13.  Widths that are all at most the capacity are left as they are,
    and for a capacity C > 0 a second pass of [adjust_best_widths] changes
    nothing. *)
Theorem adjust_best_widths_idempotent (C : Z) (best_widths : list R) :
  (Forall (fun w => w <= IZR C) best_widths ->
   adjust_best_widths C best_widths = best_widths)
  /\ ((0 < C)%Z ->
      adjust_best_widths C (adjust_best_widths C best_widths)
      = adjust_best_widths C best_widths).
Proof.
  split.
  - apply adjust_best_widths_fitting.
  - intros HC. apply adjust_best_widths_fitting.
    apply adjust_best_widths_le. assumption.
Qed.

Lemma adjust_best_widths_idempotent_witness :
  adjust_best_widths 360 [72; 360; 18] = [72; 360; 18]
  /\ adjust_best_widths 360 (adjust_best_widths 360 [750; 72])
     = adjust_best_widths 360 [750; 72].
Proof.
  split.
  - apply (proj1 (adjust_best_widths_idempotent 360 [72; 360; 18])).
    repeat (apply Forall_cons; [lra |]). apply Forall_nil.
  - apply (proj2 (adjust_best_widths_idempotent 360 [750; 72])). lia.
Defined.

(** X14.  For a capacity C > 0 every width leaves at least one strip, so
    the count never shrinks.  A width of at most 2 * C leaves at most two
    strips, so the [2 * num_radii] cells of [adjusted_widths] are enough
    when no width exceeds 2 * C; a width above 2 * C leaves three strips
    or more. *)
Theorem adjust_best_widths_count (C : Z) (best_widths : list R) :
  (0 < C)%Z ->
  (length best_widths <= length (adjust_best_widths C best_widths))%nat
  /\ (Forall (fun w => w <= 2 * IZR C) best_widths ->
      (length (adjust_best_widths C best_widths)
       <= 2 * length best_widths)%nat)
  /\ (forall w, 2 * IZR C < w ->
        (3 <= length (adjust_best_widths C [w]))%nat).
Proof.
  intros HC. split; [| split].
  - induction best_widths as [| w ws IH]; [simpl; lia |].
    rewrite adjust_best_widths_cons, length_app.
    pose proof (proj1 (split_width_count C w HC)). simpl. lia.
  - intros H. induction H as [| w ws Hw Hws IH]; [simpl; lia |].
    rewrite adjust_best_widths_cons, length_app.
    pose proof (proj1 (proj2 (split_width_count C w HC)) Hw). simpl. lia.
  - intros w Hw. rewrite adjust_best_widths_cons.
    change (adjust_best_widths C []) with (@nil R). rewrite app_nil_r.
    apply (proj2 (proj2 (split_width_count C w HC))). assumption.
Qed.

Lemma adjust_best_widths_count_witness :
  (length [750%R; 72%R]
   <= length (adjust_best_widths 360 [750%R; 72%R]))%nat
  /\ (length (adjust_best_widths 360 [700%R; 72%R])
      <= 2 * length [700%R; 72%R])%nat
  /\ (3 <= length (adjust_best_widths 360 [750%R]))%nat.
Proof.
  destruct (adjust_best_widths_count 360 [750; 72]) as [Hlen _]; [lia |].
  destruct (adjust_best_widths_count 360 [700; 72]) as [_ [Htwo Hthree]];
    [lia |].
  split; [assumption |]. split.
  - apply Htwo. repeat (apply Forall_cons; [lra |]). apply Forall_nil.
  - apply Hthree. lra.
Defined.

(** ** The functions together *)





(** ** How many rectangles first-fit uses *)

Lemma sum_widths_nonneg (l : list R) :
  Forall (fun w => 0 <= w) l -> 0 <= sum_widths l.
Proof.
  intros H. induction H as [| x l Hx Hl IH]; simpl; lra.
Qed.

(** Rectangles taken two by two hold more than one capacity a pair. *)
Lemma no_earlier_fit_bound (C : Z) :
  (0 < C)%Z ->
  forall k rects,
    (length rects <= k)%nat ->
    no_earlier_fit rects ->
    Forall (fun b => remaining_space b = IZR C - sum_widths (packed b)
                     /\ packed b <> []
                     /\ Forall (fun w => 0 <= w) (packed b)) rects ->
    IZR (Z.of_nat (length rects)) * IZR C - IZR C
    <= 2 * sum_widths (placed rects).
Proof.
  intros HC. assert (HCr : 0 < IZR C) by (apply IZR_lt; assumption).
  induction k as [| k IH]; intros rects Hlen Hinv Hgood.
  - destruct rects; [| simpl in Hlen; lia]. simpl. lra.
  - destruct rects as [| b1 [| b2 rest]].
    + simpl. lra.
    + inversion Hgood as [| b l [_ [_ Hpos]] _]; subst.
      unfold placed. simpl. rewrite app_nil_r.
      pose proof (sum_widths_nonneg _ Hpos). lra.
    + inversion Hgood as [| b l [Hsum1 [_ Hpos1]] Hgood']; subst.
      inversion Hgood' as [| b l [_ [Hne2 Hpos2]] Hgood'']; subst.
      destruct Hinv as [Hhead [_ Hrest]].
      assert (Hpair : IZR C < sum_widths (packed b1) + sum_widths (packed b2)).
      { destruct (packed b2) as [| s l2] eqn:E; [contradiction |].
        assert (Hs : remaining_space b1 < s).
        { apply (Hhead b2 s); [left; reflexivity |].
          rewrite E. left. reflexivity. }
        pose proof (sum_widths_In (s :: l2) s Hpos2 (or_introl eq_refl)).
        lra. }
      assert (Hk : (length rest <= k)%nat) by (simpl in Hlen; lia).
      specialize (IH rest Hk Hrest Hgood'').
      unfold placed in *. cbn [map concat length].
      rewrite !sum_widths_app.
      rewrite !Nat2Z.inj_succ, !succ_IZR. lra.
Qed.

(** X17.  When no strip is negative and the capacity is C > 0, the
    rectangles used, less one, have a capacity of at most twice the total
    length of the strips: first-fit uses fewer than
    [2 * total / C + 1] rectangles. *)
Theorem first_fit_rectangle_bound (C : Z) (small_widths : list R) :
  (0 < C)%Z -> Forall (fun w => 0 <= w) small_widths ->
  let report := pack_rectangles C small_widths in
  IZR (large_rect_count report - 1) * IZR C <= 2 * sum_widths small_widths.
Proof.
  intros HC Hpos report.
  assert (Hsorted : Forall (fun w => 0 <= w) (qsort_desc small_widths)).
  { apply Forall_forall. intros w Hw.
    apply (Permutation_in _ (qsort_desc_perm small_widths)) in Hw.
    apply (proj1 (Forall_forall _ _) Hpos w Hw). }
  assert (Hperm : Permutation (placed (packed_rects C small_widths))
                    small_widths).
  { unfold packed_rects. apply perm_trans with (qsort_desc small_widths).
    - apply (pack_loop_placed C (qsort_desc small_widths) []).
    - apply qsort_desc_perm. }
  assert (Hinv : no_earlier_fit (packed_rects C small_widths)).
  { unfold packed_rects. apply pack_loop_no_earlier_fit;
      [assumption | exact I]. }
  assert (Hsum : Forall
                   (fun b => remaining_space b
                             = IZR C - sum_widths (packed b))
                   (packed_rects C small_widths))
    by (unfold packed_rects; apply pack_loop_sum; constructor).
  assert (Hne : Forall (fun b => packed b <> [])
                  (packed_rects C small_widths))
    by (unfold packed_rects; apply pack_loop_nonempty; constructor).
  assert (Hgood : Forall
                    (fun b => remaining_space b
                              = IZR C - sum_widths (packed b)
                              /\ packed b <> []
                              /\ Forall (fun w => 0 <= w) (packed b))
                    (packed_rects C small_widths)).
  { apply Forall_forall. intros b Hb.
    split; [apply (proj1 (Forall_forall _ _) Hsum b Hb) |].
    split; [apply (proj1 (Forall_forall _ _) Hne b Hb) |].
    apply Forall_forall. intros s Hs.
    assert (Hplaced : In s (placed (packed_rects C small_widths))).
    { unfold placed. apply in_concat. exists (packed b).
      split; [apply in_map; assumption | assumption]. }
    apply (Permutation_in _ Hperm) in Hplaced.
    apply (proj1 (Forall_forall _ _) Hpos s Hplaced). }
  pose proof (no_earlier_fit_bound C HC _ _ (Nat.le_refl _) Hinv Hgood)
    as Hbound.
  rewrite (sum_widths_perm _ _ Hperm) in Hbound.
  unfold report, pack_rectangles, report_of. cbn [large_rect_count].
  rewrite minus_IZR. lra.
Qed.

Lemma first_fit_rectangle_bound_witness :
  let report := pack_rectangles 360 [360; 360; 30; 72; 18] in
  IZR (large_rect_count report - 1) * 360
  <= 2 * sum_widths [360; 360; 30; 72; 18].
Proof.
  apply (first_fit_rectangle_bound 360 [360; 360; 30; 72; 18]); [lia |].
  repeat (apply Forall_cons; [lra |]). apply Forall_nil.
Defined.

(** ** More circles never need less width *)

Lemma first_reaching_mono (rows n n' c c' : Z) :
  (n <= n')%Z -> first_reaching rows n c -> first_reaching rows n' c' ->
  (c <= c')%Z.
Proof.
  intros Hn [Hc [_ Hbelow]] [Hc' [Hreach' _]].
  destruct (Z.le_gt_cases c c') as [H | H]; [assumption |].
  specialize (Hbelow c' ltac:(lia)). lia.
Qed.

Lemma flat_first_reaching_mono (r : R) (rows n n' j j' : Z) :
  (n <= n')%Z -> flat_first_reaching r rows n j ->
  flat_first_reaching r rows n' j' -> (j <= j')%Z.
Proof.
  intros Hn [Hj [_ Hbelow]] [Hj' [Hreach' _]].
  destruct (Z.le_gt_cases j j') as [H | H]; [assumption |].
  specialize (Hbelow j' ltac:(lia)). lia.
Qed.

Lemma columns_regular_mono (r : R) (height n n' : Z) :
  (1 <= n)%Z -> (n <= n')%Z ->
  (columns_regular r height n <= columns_regular r height n')%Z.
Proof.
  intros Hn Hle.
  pose proof (columns_regular_ceiling r height n Hn) as H1.
  pose proof (columns_regular_ceiling r height n' ltac:(lia)) as H2.
  pose proof (rows_regular_ge_1 r height) as Hrows.
  cbv zeta in H1, H2. nia.
Qed.



(** ** The order of the strips in a rectangle *)

Lemma descending_snoc (l : list R) (w : R) :
  descending l -> (forall x, In x l -> w <= x) -> descending (l ++ [w]).
Proof.
  intros H. induction H as [| x | x y l Hyx Hl IH]; intros Hall.
  - apply descending_one.
  - simpl. apply descending_cons; [| apply descending_one].
    apply Hall. left. reflexivity.
  - simpl. apply descending_cons; [assumption |].
    apply IH. intros z Hz. apply Hall. right. assumption.
Qed.

Lemma first_fit_Forall (P Q : large_rect -> Prop) (w : R)
    (rects : list large_rect) :
  (forall b, P b -> Q b) ->
  (forall b, P b -> Q (mk_rect (remaining_space b - w) (packed b ++ [w]))) ->
  Forall P rects ->
  forall rects', first_fit w rects = Some rects' -> Forall Q rects'.
Proof.
  intros Hkeep Hput H.
  induction H as [| b rects Hb Hrects IH]; intros rects' Hfit;
    simpl in Hfit; [discriminate |].
  destruct (C.geb (remaining_space b) w).
  - injection Hfit as <-. constructor; [apply Hput; assumption |].
    revert Hrects. apply Forall_impl. assumption.
  - destruct (first_fit w rects) as [rest' |]; [| discriminate].
    injection Hfit as <-. constructor; [apply Hkeep; assumption |].
    apply IH. reflexivity.
Qed.

Lemma pack_loop_descending (C : Z) (ws : list R) :
  descending ws ->
  forall rects,
    Forall (fun b => descending (packed b)
                     /\ forall x w, In x (packed b) -> In w ws -> w <= x)
      rects ->
    Forall (fun b => descending (packed b)) (pack_loop C ws rects).
Proof.
  induction ws as [| w ws IH]; intros Hdesc rects Hinv.
  - simpl. revert Hinv. apply Forall_impl. intros b [Hb _]. exact Hb.
  - simpl. apply IH; [apply (descending_tail w); assumption |].
    assert (Hkeep : forall b,
               descending (packed b)
               /\ (forall x w0, In x (packed b) -> In w0 (w :: ws) -> w0 <= x)
               -> descending (packed b)
                  /\ (forall x w0, In x (packed b) -> In w0 ws -> w0 <= x)).
    { intros b [Hb Hall]. split; [assumption |].
      intros x w0 Hx Hw0. apply Hall; [assumption | right; assumption]. }
    assert (Hput : forall b,
               descending (packed b)
               /\ (forall x w0, In x (packed b) -> In w0 (w :: ws) -> w0 <= x)
               -> descending (packed (mk_rect (remaining_space b - w)
                                        (packed b ++ [w])))
                  /\ (forall x w0,
                         In x (packed (mk_rect (remaining_space b - w)
                                         (packed b ++ [w]))) ->
                         In w0 ws -> w0 <= x)).
    { intros b [Hb Hall]. cbn [packed]. split.
      - apply descending_snoc; [assumption |].
        intros x Hx. apply Hall; [assumption | left; reflexivity].
      - intros x w0 Hx Hw0. apply in_app_or in Hx.
        destruct Hx as [Hx | [<- | []]].
        + apply Hall; [assumption | right; assumption].
        + apply (descending_head w ws); assumption. }
    unfold place. destruct (first_fit w rects) as [rects' |] eqn:E.
    + apply (first_fit_Forall _ _ w rects Hkeep Hput Hinv rects' E).
    + apply Forall_app. split.
      * revert Hinv. apply Forall_impl. exact Hkeep.
      * constructor; [| constructor]. cbn [packed]. split.
        -- apply descending_one.
        -- intros x w0 [<- | []] Hw0.
           apply (descending_head w ws); assumption.
Qed.

(** X19.  Each line of the packing details lists its strips from the
    largest to the smallest: a rectangle receives its strips in the
    sorted order. *)
Theorem details_descending (C : Z) (small_widths : list R) :
  Forall descending (details (pack_rectangles C small_widths)).
Proof.
  unfold pack_rectangles, report_of. cbn [details].
  apply Forall_map. unfold packed_rects.
  apply pack_loop_descending; [apply qsort_desc_descending | constructor].
Qed.
